(** * cozy-stack job broker: model/job/broker.go

    A shallow embedding of the job entity, its persistence helpers and the
    listing queries of [model/job/broker.go], together with the properties
    the specification states about them. *)

From Stdlib Require Import ZArith NArith Lia Bool Ascii.
From Stdlib Require String.
From Stdlib.Strings Require Import Byte.
From stdpp Require Import base option list sorting gmap strings.

Local Open Scope Z_scope.

(** ** Data model *)

(** [type State string] with its four named constants. *)
Definition State : Type := string.
Definition Queued : State := "queued".
Definition Running : State := "running".
Definition Done : State := "done".
Definition Errored : State := "errored".

(** [time.Time] is an instant, counted in nanoseconds from the zero value
    [time.Time{}]; [time.Duration] is a signed count of nanoseconds. *)
Definition Time : Type := Z.
Definition zeroTime : Time := 0.
Definition Before (t u : Time) : bool := t <? u.
Definition Duration : Type := Z.
Definition Minute : Duration := 60 * 1000000000.

(** [JobOptions] *)
Record JobOptions : Type := mkJobOptions {
  MaxExecCount : Z;
  Timeout : Duration
}.

(** [Job].  The Go struct holds three byte slices ([Message], [Event],
    [Payload], all [json.RawMessage]) and one pointer ([Options]).  The record
    is parametric in how these reference-typed fields are represented:
    [Job] below reads them by value ([None] is Go's [nil]), the [Heap] module
    further down reads them as references into a store of arrays. *)
Record Job_ (Blob Opts : Type) : Type := mkJob {
  JobID : string;
  JobRev : string;
  Domain : string;
  Prefix : string;
  WorkerType : string;
  TriggerID : string;
  Message : Blob;
  Event : Blob;
  Payload : Blob;
  Manual : bool;
  Debounced : bool;
  Options : Opts;
  JState : State;
  QueuedAt : Time;
  StartedAt : Time;
  FinishedAt : Time;
  Error : string;
  ForwardLogs : bool
}.
Arguments mkJob {Blob Opts}.
Arguments JobID {Blob Opts}.
Arguments JobRev {Blob Opts}.
Arguments Domain {Blob Opts}.
Arguments Prefix {Blob Opts}.
Arguments WorkerType {Blob Opts}.
Arguments TriggerID {Blob Opts}.
Arguments Message {Blob Opts}.
Arguments Event {Blob Opts}.
Arguments Payload {Blob Opts}.
Arguments Manual {Blob Opts}.
Arguments Debounced {Blob Opts}.
Arguments Options {Blob Opts}.
Arguments JState {Blob Opts}.
Arguments QueuedAt {Blob Opts}.
Arguments StartedAt {Blob Opts}.
Arguments FinishedAt {Blob Opts}.
Arguments Error {Blob Opts}.
Arguments ForwardLogs {Blob Opts}.

(** A byte slice read by value: [None] is the nil slice. *)
Definition RawMessage : Type := option (list byte).

Definition Job : Type := Job_ RawMessage (option JobOptions).

(** The bytes of a Go string or byte slice literal. *)
Definition bytes (s : string) : list byte := String.list_byte_of_string s.

(** The same, with every apostrophe standing for a double quote, to write
    JSON texts down. *)
Definition json_text (s : string) : list byte :=
  (λ c, match c with x27 => x22 | _ => c end) <$> bytes s.

Fixpoint bytes_eqb (a b : list byte) : bool :=
  match a, b with
  | [], [] => true
  | x :: a', y :: b' => Byte.eqb x y && bytes_eqb a' b'
  | _, _ => false
  end.

(** [JobRequest] (the [Trigger] member is an interface value that [NewJob]
    never reads; it is kept abstract). *)
Record JobRequest_ (Blob Opts Trig : Type) : Type := mkJobRequest {
  rWorkerType : string;
  rTriggerID : string;
  rTrigger : Trig;
  rMessage : Blob;
  rEvent : Blob;
  rPayload : Blob;
  rManual : bool;
  rDebounced : bool;
  rForwardLogs : bool;
  rOptions : Opts
}.
Arguments mkJobRequest {Blob Opts Trig}.
Arguments rWorkerType {Blob Opts Trig}.
Arguments rTriggerID {Blob Opts Trig}.
Arguments rTrigger {Blob Opts Trig}.
Arguments rMessage {Blob Opts Trig}.
Arguments rEvent {Blob Opts Trig}.
Arguments rPayload {Blob Opts Trig}.
Arguments rManual {Blob Opts Trig}.
Arguments rDebounced {Blob Opts Trig}.
Arguments rForwardLogs {Blob Opts Trig}.
Arguments rOptions {Blob Opts Trig}.

Definition JobRequest (Trig : Type) : Type :=
  JobRequest_ RawMessage (option JobOptions) Trig.

(** Field assignments [j.F = v] on a [*Job]. *)
Section Setters.
Context {Blob Opts : Type}.
Implicit Type j : Job_ Blob Opts.

Definition SetID (id : string) j : Job_ Blob Opts :=
  mkJob id (JobRev j) (Domain j) (Prefix j) (WorkerType j) (TriggerID j)
    (Message j) (Event j) (Payload j) (Manual j) (Debounced j) (Options j)
    (JState j) (QueuedAt j) (StartedAt j) (FinishedAt j) (Error j)
    (ForwardLogs j).

Definition SetRev (rev : string) j : Job_ Blob Opts :=
  mkJob (JobID j) rev (Domain j) (Prefix j) (WorkerType j) (TriggerID j)
    (Message j) (Event j) (Payload j) (Manual j) (Debounced j) (Options j)
    (JState j) (QueuedAt j) (StartedAt j) (FinishedAt j) (Error j)
    (ForwardLogs j).

Definition set_Message (b : Blob) j : Job_ Blob Opts :=
  mkJob (JobID j) (JobRev j) (Domain j) (Prefix j) (WorkerType j)
    (TriggerID j) b (Event j) (Payload j) (Manual j) (Debounced j)
    (Options j) (JState j) (QueuedAt j) (StartedAt j) (FinishedAt j)
    (Error j) (ForwardLogs j).

Definition set_Event (b : Blob) j : Job_ Blob Opts :=
  mkJob (JobID j) (JobRev j) (Domain j) (Prefix j) (WorkerType j)
    (TriggerID j) (Message j) b (Payload j) (Manual j) (Debounced j)
    (Options j) (JState j) (QueuedAt j) (StartedAt j) (FinishedAt j)
    (Error j) (ForwardLogs j).

Definition set_Payload (b : Blob) j : Job_ Blob Opts :=
  mkJob (JobID j) (JobRev j) (Domain j) (Prefix j) (WorkerType j)
    (TriggerID j) (Message j) (Event j) b (Manual j) (Debounced j)
    (Options j) (JState j) (QueuedAt j) (StartedAt j) (FinishedAt j)
    (Error j) (ForwardLogs j).

Definition set_Options (o : Opts) j : Job_ Blob Opts :=
  mkJob (JobID j) (JobRev j) (Domain j) (Prefix j) (WorkerType j)
    (TriggerID j) (Message j) (Event j) (Payload j) (Manual j)
    (Debounced j) o (JState j) (QueuedAt j) (StartedAt j) (FinishedAt j)
    (Error j) (ForwardLogs j).

Definition set_State (s : State) j : Job_ Blob Opts :=
  mkJob (JobID j) (JobRev j) (Domain j) (Prefix j) (WorkerType j)
    (TriggerID j) (Message j) (Event j) (Payload j) (Manual j)
    (Debounced j) (Options j) s (QueuedAt j) (StartedAt j) (FinishedAt j)
    (Error j) (ForwardLogs j).

Definition set_StartedAt (t : Time) j : Job_ Blob Opts :=
  mkJob (JobID j) (JobRev j) (Domain j) (Prefix j) (WorkerType j)
    (TriggerID j) (Message j) (Event j) (Payload j) (Manual j)
    (Debounced j) (Options j) (JState j) (QueuedAt j) t (FinishedAt j)
    (Error j) (ForwardLogs j).

Definition set_FinishedAt (t : Time) j : Job_ Blob Opts :=
  mkJob (JobID j) (JobRev j) (Domain j) (Prefix j) (WorkerType j)
    (TriggerID j) (Message j) (Event j) (Payload j) (Manual j)
    (Debounced j) (Options j) (JState j) (QueuedAt j) (StartedAt j) t
    (Error j) (ForwardLogs j).

Definition set_Error (e : string) j : Job_ Blob Opts :=
  mkJob (JobID j) (JobRev j) (Domain j) (Prefix j) (WorkerType j)
    (TriggerID j) (Message j) (Event j) (Payload j) (Manual j)
    (Debounced j) (Options j) (JState j) (QueuedAt j) (StartedAt j)
    (FinishedAt j) e (ForwardLogs j).
End Setters.

(** [prefixer.Prefixer]: the interface through which a tenant is named. *)
Class Prefixer (T : Type) : Type := {
  DBPrefix : T → string;
  DomainName : T → string
}.

(** The methods [DBPrefix] and [DomainName] of a job. *)
Definition Job_DBPrefix {Blob Opts} (j : Job_ Blob Opts) : string :=
  if negb (String.eqb (Prefix j) "") then Prefix j else Domain j.

#[export] Instance Job_Prefixer {Blob Opts} : Prefixer (Job_ Blob Opts) := {
  DBPrefix := Job_DBPrefix;
  DomainName := Domain
}.

(** ** The world a job lives in: wall clock and document store *)

(** Go's [error]: [None] is [nil]. *)
Definition error (Err : Type) : Type := option Err.

(** What the broker hands to the document store, in call order. *)
Inductive StoreCall : Type :=
| CallUpdateDoc (doc : Job)
| CallCreateDoc (doc : Job).

Definition call_doc (c : StoreCall) : Job :=
  match c with CallUpdateDoc d => d | CallCreateDoc d => d end.

(** The state threaded through the effectful operations: the store's own
    state, the log of the documents submitted to it, and the number of clock
    readings taken so far. *)
Record World (Store : Type) : Type := mkWorld {
  store : Store;
  calls : list StoreCall;
  tick : nat
}.
Arguments mkWorld {Store}.
Arguments store {Store}.
Arguments calls {Store}.
Arguments tick {Store}.

(** State monad over [World]. *)
Definition M (Store A : Type) : Type := World Store → A * World Store.

Definition ret {Store A} (a : A) : M Store A := λ w, (a, w).
Definition bind {Store A B} (m : M Store A) (k : A → M Store B) : M Store B :=
  λ w, let '(a, w') := m w in k a w'.

Notation "x <- m ;; k" := (bind m (λ x, k))
  (at level 100, m at next level, right associativity).

Section Broker.
(** The collaborators of the job entity, none of which is defined in
    [broker.go]: the wall clock read by [time.Now], and package
    [pkg/couchdb]. *)
Context {Err Store : Type}.

(** The [n]-th reading of the clock since the program started. *)
Variable wall : nat → Time.

(** Modelled from the spec: [couchdb.IsNotFoundError], [couchdb.UpdateDoc]
    and [couchdb.CreateDoc] belong to [pkg/couchdb], which is not among the
    sources.  The document store is an external collaborator that either
    reports an error or accepts the document; on an accepted update it
    hands back the new revision token, on an accepted creation the identity
    it assigned and the first revision.  [IsNotFoundError] tells whether an
    error reports a missing document or collection. *)
Variable IsNotFoundError : Err → bool.
Variable UpdateDoc : Job → Store → (Err + string) * Store.
Variable CreateDoc : Job → Store → (Err + string * string) * Store.

Abbreviation W := (World Store).
Abbreviation M' := (M Store).

(** [time.Now()] *)
Definition time_Now : M' Time :=
  λ w, (wall (tick w), mkWorld (store w) (calls w) (S (tick w))).

(** [couchdb.UpdateDoc(j, j)]: on success the document's revision is
    replaced by the one the store returned. *)
Definition couchdb_UpdateDoc (j : Job) : M' (error Err * Job) :=
  λ w, let '(r, s) := UpdateDoc j (store w) in
       let w' := mkWorld s (calls w ++ [CallUpdateDoc j]) (tick w) in
       match r with
       | inl e => ((Some e, j), w')
       | inr rev => ((None, SetRev rev j), w')
       end.

(** [couchdb.CreateDoc(j, j)]: on success the document receives the
    identity and revision chosen by the store. *)
Definition couchdb_CreateDoc (j : Job) : M' (error Err * Job) :=
  λ w, let '(r, s) := CreateDoc j (store w) in
       let w' := mkWorld s (calls w ++ [CallCreateDoc j]) (tick w) in
       match r with
       | inl e => ((Some e, j), w')
       | inr (id, rev) => ((None, SetRev rev (SetID id j)), w')
       end.

(** [couchdb.IsNotFoundError(err)] on a possibly nil error. *)
Definition couchdb_IsNotFoundError (err : error Err) : bool :=
  match err with
  | None => false
  | Some e => IsNotFoundError e
  end.

(** [func (j *Job) Create() error] *)
Definition Create (j : Job) : M' (error Err * Job) :=
  couchdb_CreateDoc j.

(** [func (j *Job) Update() error] *)
Definition Update (j : Job) : M' (error Err * Job) :=
  r <- couchdb_UpdateDoc j ;;
  let '(err, j) := r in
  if couchdb_IsNotFoundError err then
    let j := SetID "" j in
    let j := SetRev "" j in
    Create j
  else ret (err, j).

(** [func (j *Job) AckConsumed() error] (the debug log line is not
    modelled) *)
Definition AckConsumed (j : Job) : M' (error Err * Job) :=
  now <- time_Now ;;
  let j := set_StartedAt now j in
  let j := set_State Running j in
  Update j.

(** [func (j *Job) Ack() error] *)
Definition Ack (j : Job) : M' (error Err * Job) :=
  now <- time_Now ;;
  let j := set_FinishedAt now j in
  let j := set_State Done j in
  let j := set_Event None j in
  let j := set_Payload None j in
  Update j.

(** [func (j *Job) Nack(errorMessage string) error] *)
Definition Nack (errorMessage : string) (j : Job) : M' (error Err * Job) :=
  now <- time_Now ;;
  let j := set_FinishedAt now j in
  let j := set_State Errored j in
  let j := set_Error errorMessage j in
  let j := set_Event None j in
  let j := set_Payload None j in
  Update j.

(** [func NewJob(db prefixer.Prefixer, req *JobRequest) *Job]; the fields
    the composite literal leaves out take their zero values. *)
Definition NewJob {T Trig} `{Prefixer T} (db : T) (req : JobRequest Trig)
  : M' Job :=
  now <- time_Now ;;
  ret (mkJob "" "" (DomainName db) (DBPrefix db) (rWorkerType req)
         (rTriggerID req) (rMessage req) (rEvent req) (rPayload req)
         (rManual req) (rDebounced req) (rOptions req) Queued now
         zeroTime zeroTime "" (rForwardLogs req)).

End Broker.

(** ** Listing and pagination *)

(** [defaultMaxLimits]: how many jobs are returned for each job state. *)
Definition defaultMaxLimits : gmap State Z :=
  {[ Queued := 50; Running := 50; Done := 50; Errored := 50 ]}.

(** Indexing a Go map, [m[k]]: a missing key reads as the zero value. *)
Definition map_index (m : gmap State Z) (k : State) : Z := default 0 (m !! k).

(** The test of the [if] in [FilterByWorkerAndState]. *)
Definition matches (workerType : string) (state : State) (j : Job) : bool :=
  String.eqb (WorkerType j) workerType && String.eqb (JState j) state.

(** The [for ... range jobs] loop of [FilterByWorkerAndState].  Next to the
    slice being built it counts the elements of [jobs] that were read, so
    that the early [return] can be told from a scan to the end. *)
Fixpoint filter_loop (workerType : string) (state : State) (limit : Z)
    (jobs returned : list Job) (scanned : nat) : list Job * nat :=
  match jobs with
  | [] => (returned, scanned)
  | j :: jobs =>
      if matches workerType state j then
        let returned := returned ++ [j] in
        if Z.of_nat (length returned) =? limit then (returned, S scanned)
        else filter_loop workerType state limit jobs returned (S scanned)
      else filter_loop workerType state limit jobs returned (S scanned)
  end.

(** [func FilterByWorkerAndState(jobs []*Job, workerType string, state State,
    limit int) []*Job] *)
Definition FilterByWorkerAndState (jobs : list Job) (workerType : string)
    (state : State) (limit : Z) : list Job :=
  fst (filter_loop workerType state limit jobs [] 0).

(** Number of elements of [jobs] the loop reads before it returns. *)
Definition FilterByWorkerAndState_scanned (jobs : list Job)
    (workerType : string) (state : State) (limit : Z) : nat :=
  snd (filter_loop workerType state limit jobs [] 0).

(** The comparison handed to [sort.Slice] by [GetLastsJobs]. *)
Definition less_QueuedAt (a b : Job) : bool := Before (QueuedAt a) (QueuedAt b).

(** The order [less_QueuedAt] sorts into: no later element is queued before
    an earlier one. *)
Definition QueuedAt_le (a b : Job) : Prop := QueuedAt a ≤ QueuedAt b.

(** What a call of [GetLastsJobs] leaves behind: the returned slice, the
    returned error, and the contents of the caller's slice [jobs], which
    [sort.Slice] reorders in place. *)
Record LastsJobs : Type := mkLastsJobs {
  lj_result : list Job;
  lj_err : option string;
  lj_jobs : list Job
}.

Section Lasts.
(** [sort.Slice] of the Go standard library, taken with its documented
    contract only (see [SortSlice] below): it is not stable, so the order of
    jobs queued at the same instant is its own choice. *)
Variable sort_Slice : (Job → Job → bool) → list Job → list Job.

(** [func GetLastsJobs(jobs []*Job, workerType string) ([]*Job, error)] *)
Definition GetLastsJobs (jobs : list Job) (workerType : string) : LastsJobs :=
  let jobs := sort_Slice less_QueuedAt jobs in
  let result :=
    foldl (λ result state,
             let limit := map_index defaultMaxLimits state in
             let filtered := FilterByWorkerAndState jobs workerType state limit in
             result ++ filtered)
          [] [Queued; Running; Done; Errored] in
  mkLastsJobs result None jobs.
End Lasts.

(** The contract of [sort.Slice] for the comparison [less_QueuedAt]: the
    slice is rearranged, and afterwards it is in non-decreasing order of
    [QueuedAt]. *)
Class SortSlice (sort_Slice : (Job → Job → bool) → list Job → list Job) : Prop := {
  sort_Slice_perm : ∀ jobs, sort_Slice less_QueuedAt jobs ≡ₚ jobs;
  sort_Slice_sorted : ∀ jobs, StronglySorted QueuedAt_le (sort_Slice less_QueuedAt jobs)
}.

(** One sorting routine that meets the contract, used to run [GetLastsJobs]
    on concrete inputs: insertion from the right, which keeps jobs queued at
    the same instant in their input order. *)
Fixpoint insert_sorted (less : Job → Job → bool) (x : Job) (l : list Job) : list Job :=
  match l with
  | [] => [x]
  | y :: l' => if less y x then y :: insert_sorted less x l' else x :: l
  end.

Fixpoint insertion_sort (less : Job → Job → bool) (l : list Job) : list Job :=
  match l with
  | [] => []
  | x :: l' => insert_sorted less x (insertion_sort less l')
  end.

(** [couchdb.AllDocsRequest], with the two members [GetAllJobs] sets. *)
Record AllDocsRequest : Type := mkAllDocsRequest {
  Limit : Z;
  StartKey : string
}.

Section AllJobs.
Context {Err T : Type}.
(** [couchdb.GetAllDocs(db, consts.Jobs, req, &jobs)]: the page of job
    documents the store of tenant [db] answers with, or an error. *)
Variable GetAllDocs : T → AllDocsRequest → Err + list Job.

(** The [for remainingJobs] loop of [GetAllJobs]; [fuel] bounds the number
    of laps, and [None] means the bound was hit before the loop ended. *)
Fixpoint GetAllJobs_loop (fuel : nat) (db : T) (startkey : string)
    (finalJobs : list Job) : option (Err + list Job) :=
  match fuel with
  | O => None
  | S fuel =>
      let req := mkAllDocsRequest 10001 startkey in
      match GetAllDocs db req with
      | inl err => Some (inl err)
      | inr jobs =>
          match last jobs with
          | None => Some (inr finalJobs)
          | Some lastJob =>
              let jobs := removelast jobs in
              let startkey := JobID lastJob in
              let finalJobs := finalJobs ++ jobs in
              if Nat.eqb (length jobs) 0 then Some (inr (finalJobs ++ [lastJob]))
              else GetAllJobs_loop fuel db startkey finalJobs
          end
      end
  end.

(** [func GetAllJobs(db prefixer.Prefixer) ([]*Job, error)] *)
Definition GetAllJobs (fuel : nat) (db : T) : option (Err + list Job) :=
  GetAllJobs_loop fuel db "" [].
End AllJobs.

(** Modelled from the spec: [couchdb.GetAllDocs] belongs to [pkg/couchdb],
    which is not among the sources.  The store answers an all-documents
    request with identity-ordered pagination: of the tenant's documents, kept
    in ascending order of identity, it returns those whose identity is not
    below the start key, cut after [Limit] documents.  A tenant is given
    here by the documents its store holds. *)
Definition GetAllDocs_paged {Err : Type} (docs : list Job) (req : AllDocsRequest)
    : Err + list Job :=
  inr (take (Z.to_nat (Limit req))
         (filter (λ j, String.leb (StartKey req) (JobID j) = true) docs)).

(** Identities ascend strictly along the store's documents. *)
Definition JobID_lt (a b : Job) : Prop := String.ltb (JobID a) (JobID b) = true.
Definition identity_ordered (docs : list Job) : Prop := StronglySorted JobID_lt docs.

(** ** Blocking wait *)

(** A Go [interface{}] value found in the field map of a JSON document: a
    string, or a value of another dynamic type. *)
Inductive any : Type :=
| AnyString (s : string)
| AnyOther.

(** The dynamic types of [e.Doc] that [WaitUntilDone] tells apart. *)
Inductive EventDoc : Type :=
| CouchJSONDoc (m : gmap string any)
| RealtimeJSONDoc (m : gmap string any)
| JobDoc (j : Job)
| OtherDoc.

(** [realtime.Event], of which only [Doc] is read. *)
Record RTEvent : Type := mkRTEvent { Doc : EventDoc }.

(** [stateStr, _ := doc.M["state"].(string)]: the empty string unless the
    entry is present and holds a string. *)
Definition state_field (m : gmap string any) : string :=
  match m !! "state" with
  | Some (AnyString s) => s
  | _ => ""
  end.

(** The state the loop body reads off a received event. *)
Definition event_state (e : RTEvent) : State :=
  match Doc e with
  | CouchJSONDoc m => state_field m
  | RealtimeJSONDoc m => state_field m
  | JobDoc doc => JState doc
  | OtherDoc => Queued
  end.

(** The bound given to [time.After]. *)
Definition waitTimeout : Duration := 10 * Minute.

(** What [WaitUntilDone] returns: nil, the error of [sub.Watch], or the
    error it builds itself with [errors.New]. *)
Inductive WaitError (Err : Type) : Type :=
| WatchError (err : Err)
| NewError (msg : string).
Arguments WatchError {Err}.
Arguments NewError {Err}.

(** The [for { select { ... } }] loop.  The subscriber's channel is given
    by the events it will deliver, each with the instant at which it becomes
    receivable; the timer fires at [deadline].  A lap takes no time: an
    event receivable before the deadline is received, and when the next
    event is not receivable before the deadline, or none is left, the timer
    case is taken. *)
Fixpoint WaitUntilDone_loop {Err : Type} (deadline : Time)
    (channel : list (Time * RTEvent)) : error (WaitError Err) :=
  match channel with
  | [] => None
  | (t, e) :: channel =>
      if t <? deadline then
        let state := event_state e in
        if String.eqb state Done then None
        else if String.eqb state Errored then
          Some (NewError "The konnector failed on account deletion")
        else WaitUntilDone_loop deadline channel
      else None
  end.

(** [func (j *Job) WaitUntilDone(db prefixer.Prefixer) error]; [watch] is
    the result of [sub.Watch(j.DocType(), j.ID())] and [now] the instant at
    which the timer is started. *)
Definition WaitUntilDone {Err : Type} (watch : error Err) (now : Time)
    (channel : list (Time * RTEvent)) : error (WaitError Err) :=
  match watch with
  | Some err => Some (WatchError err)
  | None =>
      let timeout := now + waitTimeout in
      WaitUntilDone_loop timeout channel
  end.

(** The events the loop can receive before the timer fires. *)
Fixpoint receivable (deadline : Time) (channel : list (Time * RTEvent))
    : list RTEvent :=
  match channel with
  | [] => []
  | (t, e) :: channel =>
      if t <? deadline then e :: receivable deadline channel else []
  end.

(** An event that ends the wait. *)
Definition terminal (e : RTEvent) : bool :=
  String.eqb (event_state e) Done || String.eqb (event_state e) Errored.

(** ** Cloning, over a store of arrays *)

Module Heap.

(** Addresses of allocated objects. *)
Abbreviation loc := nat.

(** A non-nil Go slice of bytes: the array it points into, the index of its
    first element there, and its length (the capacity plays no part in
    [Clone]). *)
Record Slice : Type := mkSlice {
  arr : loc;
  off : nat;
  len : nat
}.

(** The memory [Clone] works on: byte arrays and [JobOptions] objects, each
    addressed by its position. *)
Record Mem : Type := mkMem {
  arrays : list (list byte);
  options : list JobOptions
}.

(** A [*Job] target: slices are [nil] or a slice header, [Options] is [nil]
    or the address of a [JobOptions]. *)
Definition JobH : Type := Job_ (option Slice) (option loc).

(** The bytes a slice gives access to. *)
Definition bytes_of (m : Mem) (s : Slice) : list byte :=
  take (len s) (drop (off s) (default [] (arrays m !! arr s))).

(** [make([]byte, n)]: a new array of [n] zero bytes. *)
Definition make (n : nat) (m : Mem) : Slice * Mem :=
  (mkSlice (length (arrays m)) 0 n,
   mkMem (arrays m ++ [replicate n Byte.x00]) (options m)).

(** [copy(dst, src)]: the first [min(len(dst), len(src))] bytes of [src]
    overwrite the start of [dst]. *)
Definition copy (dst src : Slice) (m : Mem) : Mem :=
  let n := Nat.min (len dst) (len src) in
  let data := take n (bytes_of m src) in
  match arrays m !! arr dst with
  | None => m
  | Some a =>
      let a' := take (off dst) a ++ data ++ drop (off dst + n) a in
      mkMem (<[arr dst := a']> (arrays m)) (options m)
  end.

(** [tmp := *p; q := &tmp]: a new object holding a copy of the one at [p]. *)
Definition new_options (p : loc) (m : Mem) : loc * Mem :=
  (length (options m),
   mkMem (arrays m)
     (options m ++ [default (mkJobOptions 0 0) (options m !! p)])).

(** One of the three blocks [if j.F != nil { tmp := j.F; j.F = make([]byte,
    len(tmp)); copy(j.F[:], tmp) }]: it yields the new value of [j.F]. *)
Definition reallocate (f : option Slice) (m : Mem) : option Slice * Mem :=
  match f with
  | None => (None, m)
  | Some tmp =>
      let '(fresh, m) := make (len tmp) m in
      let m := copy fresh tmp m in
      (Some fresh, m)
  end.

(** [func (j *Job) Clone() couchdb.Doc].  The result holds the job the
    returned pointer refers to, the receiver [*j] as the call leaves it, and
    the memory. *)
Definition Clone (j : JobH) (m : Mem) : JobH * JobH * Mem :=
  let cloned := j in
  let '(cloned, m) :=
    match Options j with
    | Some p => let '(q, m) := new_options p m in (set_Options (Some q) cloned, m)
    | None => (cloned, m)
    end in
  let '(f, m) := reallocate (Message j) m in
  let j := set_Message f j in
  let '(f, m) := reallocate (Event j) m in
  let j := set_Event f j in
  let '(f, m) := reallocate (Payload j) m in
  let j := set_Payload f j in
  (cloned, j, m).

(** A job read by value: every reference replaced by what it refers to. *)
Definition view (m : Mem) (j : JobH) : Job_ (option (list byte)) (option JobOptions) :=
  mkJob (JobID j) (JobRev j) (Domain j) (Prefix j) (WorkerType j) (TriggerID j)
    (bytes_of m <$> Message j) (bytes_of m <$> Event j) (bytes_of m <$> Payload j)
    (Manual j) (Debounced j) (Options j ≫= λ p, options m !! p)
    (JState j) (QueuedAt j) (StartedAt j) (FinishedAt j) (Error j)
    (ForwardLogs j).

(** A slice lies inside an allocated array; a pointer refers to an
    allocated object. *)
Definition valid_slice (m : Mem) (f : option Slice) : Prop :=
  match f with
  | None => True
  | Some s => ∃ a, arrays m !! arr s = Some a ∧ (off s + len s ≤ length a)%nat
  end.

Definition valid_job (m : Mem) (j : JobH) : Prop :=
  valid_slice m (Message j) ∧ valid_slice m (Event j) ∧
  valid_slice m (Payload j) ∧
  match Options j with Some p => is_Some (options m !! p) | None => True end.

(** Two slices can reach a common byte only through a common array; two
    pointers share their target when they are equal. *)
Definition separate_slices (f g : option Slice) : Prop :=
  match f, g with
  | Some s, Some t => arr s ≠ arr t
  | _, _ => True
  end.

Definition separate_pointers (p q : option loc) : Prop :=
  match p, q with
  | Some a, Some b => a ≠ b
  | _, _ => True
  end.

(** No byte of [Message], [Event] or [Payload] and no [JobOptions] object is
    reachable from both jobs. *)
Definition no_shared_storage (a b : JobH) : Prop :=
  separate_pointers (Options a) (Options b) ∧
  Forall (λ f, Forall (separate_slices f) [Message b; Event b; Payload b])
         [Message a; Event a; Payload a].

(** [s[i] = b] on a byte slice; [None] when [i] is out of range (Go
    panics). *)
Definition poke (s : Slice) (i : nat) (b : byte) (m : Mem) : option Mem :=
  if (i <? len s)%nat then
    match arrays m !! arr s with
    | Some a => Some (mkMem (<[arr s := <[(off s + i)%nat := b]> a]> (arrays m)) (options m))
    | None => None
    end
  else None.

(** Memory only grows: what was allocated stays where it was. *)
Definition extends (m m' : Mem) : Prop :=
  arrays m `prefix_of` arrays m' ∧ options m `prefix_of` options m'.

(** A memory with two arrays and one [JobOptions] object, and a job whose
    [Message] is all of the first array and whose [Payload] is the middle of
    the second. *)
Definition sample_mem : Mem :=
  mkMem [bytes "{}"; bytes "--[1,2]--"] [mkJobOptions 3 (30 * Minute)].

Definition sample_jobH : JobH :=
  mkJob "0a1" "1-0" "cozy.example.net" "" "konnector" ""
    (Some (mkSlice 0 0 2)) None (Some (mkSlice 1 2 5)) false false (Some 0%nat)
    Running 5 7 zeroTime "" false.

End Heap.

(** ** JSON messages *)

Module JSON.

#[local] Set Warnings "-register-all".

(** A parsed JSON text.  Numbers keep their literal, strings hold their
    contents with the escapes resolved. *)
Inductive value : Type :=
| JNull
| JBool (b : bool)
| JNumber (lit : list byte)
| JString (s : list byte)
| JArray (elems : list value)
| JObject (members : list (list byte * value)).

(** [c == 'x'] on bytes; the character is given by its code. *)
Definition is_byte (code : byte) (c : byte) : bool := Byte.eqb c code.

Definition is_space (c : byte) : bool :=
  is_byte x20 c || is_byte x09 c || is_byte x0a c || is_byte x0d c.

Definition is_digit (c : byte) : bool :=
  ((48 <=? Byte.to_N c) && (Byte.to_N c <=? 57))%N.

(** Value of a hexadecimal digit. *)
Definition hex_value (c : byte) : option N :=
  let n := Byte.to_N c in
  if is_digit c then Some (n - 48)%N
  else if ((97 <=? n) && (n <=? 102))%N then Some (n - 87)%N
  else if ((65 <=? n) && (n <=? 70))%N then Some (n - 55)%N
  else None.

Fixpoint skip_space (s : list byte) : list byte :=
  match s with
  | c :: s' => if is_space c then skip_space s' else s
  | [] => []
  end.

Fixpoint span_digits (s : list byte) : list byte * list byte :=
  match s with
  | c :: s' =>
      if is_digit c then let '(d, r) := span_digits s' in (c :: d, r)
      else ([], s)
  | [] => ([], [])
  end.

(** A number literal: an optional minus sign; a zero, or a non-zero digit
    and further digits; optionally a point and digits; optionally [e] or [E],
    a sign, and digits. *)
Definition scan_exponent (lit s : list byte) : option (list byte * list byte) :=
  match s with
  | e :: s' =>
      if is_byte x65 e || is_byte x45 e then
        let '(sign, s'') :=
          match s' with
          | c :: t => if is_byte x2b c || is_byte x2d c then ([c], t) else ([], s')
          | [] => ([], s')
          end in
        match span_digits s'' with
        | ([], _) => None
        | (d, r) => Some (lit ++ e :: sign ++ d, r)
        end
      else Some (lit, s)
  | [] => Some (lit, s)
  end.

Definition scan_fraction (lit s : list byte) : option (list byte * list byte) :=
  match s with
  | c :: s' =>
      if is_byte x2e c then
        match span_digits s' with
        | ([], _) => None
        | (d, r) => scan_exponent (lit ++ c :: d) r
        end
      else scan_exponent lit s
  | [] => scan_exponent lit s
  end.

Definition scan_digits (sign s : list byte) : option (list byte * list byte) :=
  match s with
  | c :: s' =>
      if is_byte x30 c then scan_fraction (sign ++ [c]) s'
      else if is_digit c then
        let '(d, r) := span_digits s' in scan_fraction (sign ++ c :: d) r
      else None
  | [] => None
  end.

Definition scan_number (s : list byte) : option (list byte * list byte) :=
  match s with
  | c :: s' => if is_byte x2d c then scan_digits [c] s' else scan_digits [] s
  | [] => None
  end.

(** A piece of a string literal: a byte taken as it is, or the 16-bit code
    unit of a [\uXXXX] escape. *)
Definition piece : Type := byte + N.

(** The byte a one-letter escape stands for. *)
Definition simple_escape (c : byte) : option byte :=
  if is_byte x22 c || is_byte x5c c || is_byte x2f c then Some c
  else if is_byte x62 c then Some x08
  else if is_byte x66 c then Some x0c
  else if is_byte x6e c then Some x0a
  else if is_byte x72 c then Some x0d
  else if is_byte x74 c then Some x09
  else None.

Definition more (p : piece) (r : option (list piece * list byte))
    : option (list piece * list byte) :=
  match r with
  | Some (ps, t) => Some (p :: ps, t)
  | None => None
  end.

(** The rest of a string literal after its opening quote: its pieces, and
    what follows the closing quote. *)
Fixpoint scan_string (s : list byte) : option (list piece * list byte) :=
  match s with
  | [] => None
  | c :: rest =>
      if is_byte x22 c then Some ([], rest)
      else if is_byte x5c c then
        match rest with
        | [] => None
        | e :: rest' =>
            match simple_escape e with
            | Some b => more (inl b) (scan_string rest')
            | None =>
                if is_byte x75 e then
                  match rest' with
                  | h1 :: h2 :: h3 :: h4 :: rest'' =>
                      match hex_value h1, hex_value h2,
                            hex_value h3, hex_value h4 with
                      | Some a, Some b, Some c, Some d =>
                          more (inr (a * 4096 + b * 256 + c * 16 + d)%N)
                               (scan_string rest'')
                      | _, _, _, _ => None
                      end
                  | _ => None
                  end
                else None
            end
        end
      else if (Byte.to_N c <? 32)%N then None
      else more (inl c) (scan_string rest)
  end.

(** UTF-8 encoding of a code point. *)
Definition byte_of_N (n : N) : byte := default x00 (Byte.of_N n).

Definition utf8 (r : N) : list byte :=
  if (r <? 128)%N then [byte_of_N r]
  else if (r <? 2048)%N then
    [byte_of_N (192 + r / 64); byte_of_N (128 + r mod 64)]
  else if (r <? 65536)%N then
    [byte_of_N (224 + r / 4096); byte_of_N (128 + (r / 64) mod 64);
     byte_of_N (128 + r mod 64)]
  else
    [byte_of_N (240 + r / 262144); byte_of_N (128 + (r / 4096) mod 64);
     byte_of_N (128 + (r / 64) mod 64); byte_of_N (128 + r mod 64)].

Definition replacement_char : N := 65533.

(** The bytes of a string given by its pieces.  A high surrogate followed by
    a low one encodes one code point; a surrogate on its own reads as
    U+FFFD.  Bytes taken as they are stay as they are (Go replaces those that
    are not valid UTF-8 by U+FFFD as well, which no comparison below can
    tell). *)
Fixpoint unquote (ps : list piece) : list byte :=
  match ps with
  | [] => []
  | inl c :: ps' => c :: unquote ps'
  | inr u :: ps' =>
      if ((55296 <=? u) && (u <? 57344))%N then
        match ps' with
        | inr u' :: ps'' =>
            if ((u <? 56320) && (56320 <=? u') && (u' <? 57344))%N
            then utf8 (65536 + (u - 55296) * 1024 + (u' - 56320)) ++ unquote ps''
            else utf8 replacement_char ++ unquote ps'
        | _ => utf8 replacement_char ++ unquote ps'
        end
      else utf8 u ++ unquote ps'
  end.

(** [s] without the leading [p], when it starts with it. *)
Fixpoint strip_prefix (p s : list byte) : option (list byte) :=
  match p, s with
  | [], _ => Some s
  | a :: p', b :: s' => if Byte.eqb a b then strip_prefix p' s' else None
  | _ :: _, [] => None
  end.

(** A literal name or a number. *)
Definition scan_literal (s : list byte) : option (value * list byte) :=
  match strip_prefix (bytes "true") s, strip_prefix (bytes "false") s,
        strip_prefix (bytes "null") s with
  | Some r, _, _ => Some (JBool true, r)
  | _, Some r, _ => Some (JBool false, r)
  | _, _, Some r => Some (JNull, r)
  | _, _, _ =>
      match scan_number s with
      | Some (lit, r) => Some (JNumber lit, r)
      | None => None
      end
  end.

(** The scanner refuses a text nested deeper than this. *)
Definition maxNestingDepth : N := 10000.

(** What a recursive scan comes back with: a result and the rest of the
    text, a syntax error, or the news that the recursion bound was hit. *)
Inductive scan (A : Type) : Type :=
| Scanned (a : A) (rest : list byte)
| Invalid
| Starved.
Arguments Scanned {A}.
Arguments Invalid {A}.
Arguments Starved {A}.

(** Recursive descent over a text that starts with a value, an element list
    or a member list.  [fuel] bounds the depth of the recursion; [depth] is
    the number of arrays and objects currently open. *)
Fixpoint parse_value (fuel : nat) (depth : N) (s : list byte) : scan value :=
  match fuel with
  | O => Starved
  | S fuel =>
      match s with
      | [] => Invalid
      | c :: s' =>
          if is_byte x7b c then
            if (maxNestingDepth <=? depth)%N then Invalid else
            match skip_space s' with
            | c' :: r =>
                if is_byte x7d c' then Scanned (JObject []) r
                else
                  match parse_members fuel (depth + 1) (c' :: r) with
                  | Scanned ms r' => Scanned (JObject ms) r'
                  | Invalid => Invalid
                  | Starved => Starved
                  end
            | [] => Invalid
            end
          else if is_byte x5b c then
            if (maxNestingDepth <=? depth)%N then Invalid else
            match skip_space s' with
            | c' :: r =>
                if is_byte x5d c' then Scanned (JArray []) r
                else
                  match parse_elements fuel (depth + 1) (c' :: r) with
                  | Scanned vs r' => Scanned (JArray vs) r'
                  | Invalid => Invalid
                  | Starved => Starved
                  end
            | [] => Invalid
            end
          else if is_byte x22 c then
            match scan_string s' with
            | Some (ps, r) => Scanned (JString (unquote ps)) r
            | None => Invalid
            end
          else
            match scan_literal s with
            | Some (v, r) => Scanned v r
            | None => Invalid
            end
      end
  end
with parse_elements (fuel : nat) (depth : N) (s : list byte)
    : scan (list value) :=
  match fuel with
  | O => Starved
  | S fuel =>
      match parse_value fuel depth s with
      | Scanned v r =>
          match skip_space r with
          | c :: r' =>
              if is_byte x5d c then Scanned [v] r'
              else if is_byte x2c c then
                match parse_elements fuel depth (skip_space r') with
                | Scanned vs r'' => Scanned (v :: vs) r''
                | Invalid => Invalid
                | Starved => Starved
                end
              else Invalid
          | [] => Invalid
          end
      | Invalid => Invalid
      | Starved => Starved
      end
  end
with parse_members (fuel : nat) (depth : N) (s : list byte)
    : scan (list (list byte * value)) :=
  match fuel with
  | O => Starved
  | S fuel =>
      match s with
      | [] => Invalid
      | q :: s' =>
          if is_byte x22 q then
            match scan_string s' with
            | Some (ps, r) =>
                match skip_space r with
                | c :: r' =>
                    if is_byte x3a c then
                      match parse_value fuel depth (skip_space r') with
                      | Scanned v r'' =>
                          match skip_space r'' with
                          | c' :: t =>
                              if is_byte x7d c' then Scanned [(unquote ps, v)] t
                              else if is_byte x2c c' then
                                match parse_members fuel depth (skip_space t) with
                                | Scanned ms t' =>
                                    Scanned ((unquote ps, v) :: ms) t'
                                | Invalid => Invalid
                                | Starved => Starved
                                end
                              else Invalid
                          | [] => Invalid
                          end
                      | Invalid => Invalid
                      | Starved => Starved
                      end
                    else Invalid
                | [] => Invalid
                end
            | None => Invalid
            end
          else Invalid
      end
  end.

(** A whole text: one value between optional white space.  Next to the
    value it yields the bytes the value is written with.  The recursion
    bound grows with the text and is never hit (see [parse_value_fed]). *)
Definition parse (data : list byte) : option (value * list byte) :=
  let s := skip_space data in
  match parse_value (2 * length s + 2) 0 s with
  | Scanned v r =>
      match skip_space r with
      | [] => Some (v, take (length s - length r) s)
      | _ => None
      end
  | _ => None
  end.

(** *** Decoding into [struct { Data []byte; Type string }] *)

(** The target of the first [json.Unmarshal] in [UnmarshalJSON]. *)
Record envelope : Type := mkEnvelope {
  Data : option (list byte);
  Type_ : list byte
}.

Inductive field : Type := FieldData | FieldType.

(** Letter case is ignored when no field matches a key exactly. *)
Definition fold_byte (c : byte) : byte :=
  let n := Byte.to_N c in
  if ((65 <=? n) && (n <=? 90))%N then byte_of_N (n + 32) else c.

Definition equal_fold (a b : list byte) : bool :=
  bytes_eqb (fold_byte <$> a) (fold_byte <$> b).

Definition find_field (key : list byte) : option field :=
  if bytes_eqb key (bytes "Data") then Some FieldData
  else if bytes_eqb key (bytes "Type") then Some FieldType
  else if equal_fold key (bytes "Data") then Some FieldData
  else if equal_fold key (bytes "Type") then Some FieldType
  else None.

(** [base64.StdEncoding]: the value of a character of the alphabet. *)
Definition b64_value (c : byte) : option N :=
  let n := Byte.to_N c in
  if ((65 <=? n) && (n <=? 90))%N then Some (n - 65)%N
  else if ((97 <=? n) && (n <=? 122))%N then Some (n - 71)%N
  else if ((48 <=? n) && (n <=? 57))%N then Some (n + 4)%N
  else match c with x2b => Some 62%N | x2f => Some 63%N | _ => None end.

(** Groups of four characters, the last one possibly padded with [=]. *)
Fixpoint b64_quanta (s : list byte) : option (list byte) :=
  match s with
  | [] => Some []
  | a :: b :: c :: d :: rest =>
      match b64_value a, b64_value b with
      | Some va, Some vb =>
          let b1 := byte_of_N (va * 4 + vb / 16) in
          if Byte.eqb c x3d && Byte.eqb d x3d && bool_decide (rest = [])
          then Some [b1] else
          match b64_value c with
          | Some vc =>
              let b2 := byte_of_N ((vb mod 16) * 16 + vc / 4) in
              if Byte.eqb d x3d && bool_decide (rest = []) then Some [b1; b2]
              else
                match b64_value d, b64_quanta rest with
                | Some vd, Some out =>
                    Some (b1 :: b2 :: byte_of_N ((vc mod 4) * 64 + vd) :: out)
                | _, _ => None
                end
          | None => None
          end
      | _, _ => None
      end
  | _ => None
  end.

(** [base64.StdEncoding.Decode]: line breaks are skipped. *)
Definition base64_decode (s : list byte) : option (list byte) :=
  b64_quanta (List.filter (λ c, match c with x0d | x0a => false | _ => true end) s).

(** A number literal read into a [uint8]. *)
Definition parse_uint8 (lit : list byte) : option byte :=
  if forallb is_digit lit && negb (bytes_eqb lit []) then
    let n := foldl (λ acc c, acc * 10 + (Byte.to_N c - 48))%N 0%N lit in
    if (n <=? 255)%N then Byte.of_N n else None
  else None.

(** A JSON array read into a [[]byte]: numbers that fit a byte; [null]
    leaves its element at zero. *)
Fixpoint decode_uint8s (elems : list value) : option (list byte) :=
  match elems with
  | [] => Some []
  | v :: elems' =>
      match (match v with
             | JNumber lit => parse_uint8 lit
             | JNull => Some x00
             | _ => None
             end), decode_uint8s elems' with
      | Some b, Some bs => Some (b :: bs)
      | _, _ => None
      end
  end.

(** One member stored into its field; [None] when the decoder records an
    error, which makes the whole call fail in the end. *)
Definition store (f : field) (v : value) (mm : envelope) : option envelope :=
  match f, v with
  | FieldData, JNull => Some (mkEnvelope None (Type_ mm))
  | FieldData, JString s =>
      match base64_decode s with
      | Some b => Some (mkEnvelope (Some b) (Type_ mm))
      | None => None
      end
  | FieldData, JArray elems =>
      match decode_uint8s elems with
      | Some b => Some (mkEnvelope (Some b) (Type_ mm))
      | None => None
      end
  | FieldType, JNull => Some mm
  | FieldType, JString s => Some (mkEnvelope (Data mm) s)
  | _, _ => None
  end.

Fixpoint decode_members (ms : list (list byte * value)) (mm : envelope)
    : option envelope :=
  match ms with
  | [] => Some mm
  | (key, v) :: ms' =>
      match find_field key with
      | None => decode_members ms' mm
      | Some f =>
          match store f v mm with
          | Some mm' => decode_members ms' mm'
          | None => None
          end
      end
  end.

(** A value decoded into the struct, starting from its zero value: [null]
    changes nothing, an object fills the fields its keys name, anything else
    is a type error. *)
Definition decode_struct (v : value) : option envelope :=
  match v with
  | JNull => Some (mkEnvelope None [])
  | JObject ms => decode_members ms (mkEnvelope None [])
  | _ => None
  end.

End JSON.


(** The errors of package [encoding/json], by kind. *)
Inductive json_error : Type := SyntaxError | DecodeError.

(** [json.Unmarshal(data, &mm)] with [mm] the struct of [UnmarshalJSON]. *)
Definition json_Unmarshal_envelope (data : list byte) : json_error + JSON.envelope :=
  match JSON.parse data with
  | None => inl SyntaxError
  | Some (v, _) =>
      match JSON.decode_struct v with
      | Some mm => inr mm
      | None => inl DecodeError
      end
  end.

(** [json.Unmarshal(data, &v)] with [v] a [json.RawMessage]: the bytes of
    the value, once the text has been checked. *)
Definition json_Unmarshal_raw (data : option (list byte)) : json_error + list byte :=
  match JSON.parse (default [] data) with
  | Some (_, text) => inr text
  | None => inl SyntaxError
  end.

(** [func (m *Message) UnmarshalJSON(data []byte) error]: the error, or the
    bytes [*m] is set to. *)
Definition UnmarshalJSON (data : list byte) : json_error + list byte :=
  match json_Unmarshal_envelope data with
  | inr mm =>
      if bytes_eqb (JSON.Type_ mm) (bytes "json") then
        match json_Unmarshal_raw (JSON.Data mm) with
        | inl err => inl err
        | inr v => inr v
        end
      else
        match json_Unmarshal_raw (Some data) with
        | inl err => inl err
        | inr v => inr v
        end
  | inl _ =>
      match json_Unmarshal_raw (Some data) with
      | inl err => inl err
      | inr v => inr v
      end
  end.

(** The test [err == nil && mm.Type == "json"] of [UnmarshalJSON]. *)
Definition is_legacy_envelope (data : list byte) : bool :=
  match json_Unmarshal_envelope data with
  | inr mm => bytes_eqb (JSON.Type_ mm) (bytes "json")
  | inl _ => false
  end.

Section Marshal.
Context {V MErr : Type}.
(** [json.Marshal] of the Go standard library, on the values [V] a caller
    passes as [interface{}]. *)
Variable json_Marshal : V → MErr + list byte.

End Marshal.



(** ** The rest of [broker.go] *)

(** [func (j *Job) Fetch(field string) []string]; [None] is the nil slice.
    [fmt.Sprintf("%v", j.State)] prints a [State] as the string it is. *)
Definition Job_Fetch (j : Job) (field : string) : option (list string) :=
  if String.eqb field "worker" then Some [WorkerType j]
  else if String.eqb field "state" then Some [JState j]
  else None.

(** [func (jr *JobRequest) Fetch(field string) []string] *)
Definition JobRequest_Fetch {Trig} (jr : JobRequest Trig) (field : string)
    : option (list string) :=
  if String.eqb field "worker" then Some [rWorkerType jr] else None.

(** The [for ... range jobs] loop of [FilterJobsBeforeDate], [b] being the
    slice built so far. *)
Fixpoint FilterJobsBeforeDate_loop (jobs b : list Job) (date : Time) : list Job :=
  match jobs with
  | [] => b
  | x :: jobs =>
      if Before (QueuedAt x) date
      then FilterJobsBeforeDate_loop jobs (b ++ [x]) date
      else FilterJobsBeforeDate_loop jobs b date
  end.

(** [func FilterJobsBeforeDate(jobs []*Job, date time.Time) []*Job] *)
Definition FilterJobsBeforeDate (jobs : list Job) (date : Time) : list Job :=
  FilterJobsBeforeDate_loop jobs [] date.

(** The two errors of the [Unmarshal] methods, [ErrMessageNil] and
    [ErrMessageUnmarshal] (declared in the package's [errors.go]). *)
Inductive MessageError : Type := ErrMessageNil | ErrMessageUnmarshal.

Section Unmarshal.
Context {T JErr : Type}.
(** [json.Unmarshal(m, &msg)] for the type [T] the caller decodes into: the
    decoded value, or an error. *)
Variable json_Unmarshal : list byte → JErr + T.

(** [func (m Message) Unmarshal(msg interface{}) error], and the methods of
    the same name and body on [Event] and [Payload]: the error, or the value
    left in [msg]. *)
Definition Unmarshal (m : RawMessage) : MessageError + T :=
  match m with
  | None => inl ErrMessageNil
  | Some b =>
      match json_Unmarshal b with
      | inl _ => inl ErrMessageUnmarshal
      | inr v => inr v
      end
  end.
End Unmarshal.

(** ** Vocabulary of the statements, and sample data *)

(** Two jobs that agree up to identity and revision. *)
Definition same_body (a b : Job) : Prop :=
  SetRev "" (SetID "" a) = SetRev "" (SetID "" b).

(** [take] with Go's reading of a limit that is never reached: the loop
    compares the length with [limit] only after an append, so a limit below
    one cuts nothing. *)
Definition cap (limit : Z) (l : list Job) : list Job :=
  if 1 <=? limit then take (Z.to_nat limit) l else l.

(** The jobs in a given state. *)
Definition in_state (s : State) (j : Job) : bool := String.eqb (JState j) s.


(** A job with the given identity, worker type, state and queueing instant,
    for running the listing functions on concrete inputs. *)
Definition sample_job (id worker : string) (s : State) (queued : Time) : Job :=
  mkJob id "1-0" "cozy.example.net" "" worker "" None None None false false
    None s queued zeroTime zeroTime "" false.

(** Jobs of several worker types and states, not in queueing order. *)
Definition sample_jobs : list Job :=
  [sample_job "a" "konnector" Done 3; sample_job "b" "thumbnail" Done 1;
   sample_job "c" "konnector" Queued 5; sample_job "d" "konnector" Done 2;
   sample_job "e" "konnector" Errored 4; sample_job "f" "konnector" Queued 0].

(** The documents of a small store. *)
Definition sample_docs : list Job :=
  [sample_job "0a1" "konnector" Done 3; sample_job "0a2" "thumbnail" Done 1;
   sample_job "b70" "konnector" Queued 5].

(** Stores of [n] documents with identities [00001], [00002], ... *)
Definition decimal_id (n : N) : string :=
  let digit (k : N) := Ascii.ascii_of_N (48 + (n / k) mod 10) in
  String.String (digit 10000%N) (String.String (digit 1000%N)
    (String.String (digit 100%N) (String.String (digit 10%N)
      (String.String (digit 1%N) String.EmptyString)))).

Fixpoint count_from (k : N) (n : nat) : list N :=
  match n with
  | O => []
  | S n => k :: count_from (N.succ k) n
  end.

Definition numbered_docs (n : nat) : list Job :=
  (λ i, sample_job (decimal_id i) "konnector" Done 0) <$> count_from 1 n.

(** [n] jobs of one worker type and state, queued in the reverse of their
    order in the slice: the first was queued last, at instant [n], and the
    last was queued first, at instant [1]. *)
Definition countdown_jobs (n : nat) : list Job :=
  (λ i, sample_job (decimal_id i) "konnector" Done (Z.of_nat n + 1 - Z.of_N i))
    <$> count_from 1 n.

(** The result holds the documents with exactly these identities, in this
    order. *)
Definition returns_ids (r : option (unit + list Job)) (docs : list Job) : bool :=
  match r with
  | Some (inr jobs) => bool_decide (JobID <$> jobs = JobID <$> docs)
  | _ => false
  end.

(** A clock that advances by one microsecond per reading. *)
Definition tick_clock (n : nat) : Time := Z.of_nat n * 1000.

Definition sample_request : JobRequest unit :=
  mkJobRequest "sendmail" "trigger-1" () (Some (bytes "{}")) None
    (Some (bytes "[1]")) true false true (Some (mkJobOptions 3 (30 * Minute))).

(** * Properties *)

(** Expose the record built by a chain of field assignments. *)
Ltac setters :=
  unfold SetID, SetRev, set_Message, set_Event, set_Payload, set_Options,
    set_State, set_StartedAt, set_FinishedAt, set_Error in *; simpl in *.

(** ** The job entity *)

Section BrokerProps.
Context {Err Store : Type}.
Variable wall : nat → Time.
Variable IsNotFoundError : Err → bool.
Variable UpdateDoc : Job → Store → (Err + string) * Store.
Variable CreateDoc : Job → Store → (Err + string * string) * Store.

#[local] Abbreviation Update' := (Update IsNotFoundError UpdateDoc CreateDoc).
#[local] Abbreviation Create' := (Create CreateDoc).
#[local] Abbreviation Ack' := (Ack wall IsNotFoundError UpdateDoc CreateDoc).
#[local] Abbreviation Nack' := (Nack wall IsNotFoundError UpdateDoc CreateDoc).

Lemma same_body_refl (a : Job) : same_body a a.
Proof. reflexivity. Qed.

Lemma same_body_SetID id (a b : Job) : same_body a b → same_body (SetID id a) b.
Proof. unfold same_body. destruct a, b; setters. intros [=]. by subst. Qed.

Lemma same_body_SetRev rev (a b : Job) : same_body a b → same_body (SetRev rev a) b.
Proof. unfold same_body. destruct a, b; setters. intros [=]. by subst. Qed.

Lemma Update_same_body (j : Job) (w : World Store) :
  same_body (Update' j w).1.2 j ∧
  tick (Update' j w).2 = tick w ∧
  ∃ new, calls (Update' j w).2 = calls w ++ new ∧ new ≠ [] ∧
         Forall (λ c, same_body (call_doc c) j) new.
Proof.
  unfold Update, Create, bind, ret, couchdb_UpdateDoc, couchdb_CreateDoc.
  destruct (UpdateDoc j (store w)) as [[e|rev] s]; simpl.
  - destruct (IsNotFoundError e); simpl.
    + destruct (CreateDoc _ s) as [[e'|[id rev]] s']; simpl;
        (split; [by repeat (apply same_body_SetRev || apply same_body_SetID)|]);
        (split; [done|]);
        exists [CallUpdateDoc j; CallCreateDoc (SetRev "" (SetID "" j))];
        rewrite <- app_assoc; (split; [done|]); (split; [done|]);
        repeat constructor; simpl;
        by repeat (apply same_body_SetRev || apply same_body_SetID).
    + split; [done|]. split; [done|].
      exists [CallUpdateDoc j]. repeat split; [done|]. by repeat constructor.
  - split; [by apply same_body_SetRev|]. split; [done|].
    exists [CallUpdateDoc j]. repeat split; [done|]. by repeat constructor.
Qed.

(** What [same_body] keeps. *)
Lemma same_body_fields (a b : Job) :
  same_body a b →
  JState a = JState b ∧ FinishedAt a = FinishedAt b ∧ Event a = Event b ∧
  Payload a = Payload b ∧ Error a = Error b ∧ StartedAt a = StartedAt b.
Proof. unfold same_body. destruct a, b; setters. intros [=]. by subst. Qed.

(** C5. [NewJob] is a total function with no error result.  For every tenant
    and request it returns a job in state [Queued] whose [QueuedAt] is a clock
    reading taken during the call, hence between a reading taken just before
    and one taken just after; [StartedAt] and [FinishedAt] are zero, and
    [WorkerType], [TriggerID], [Message], [Event], [Payload], [Manual],
    [Debounced], [ForwardLogs] and [Options] are those of the request.  The
    store is not touched. *)
Theorem NewJob_queued {T Trig : Type} `{Prefixer T} (db : T)
    (req : JobRequest Trig) (w : World Store) :
  (∀ n m : nat, (n ≤ m)%nat → wall n ≤ wall m) →
  let '(before, w1) := time_Now wall w in
  let '(j, w2) := NewJob wall db req w1 in
  let '(after, _) := time_Now wall w2 in
  JState j = Queued ∧
  before ≤ QueuedAt j ≤ after ∧
  StartedAt j = zeroTime ∧ FinishedAt j = zeroTime ∧
  WorkerType j = rWorkerType req ∧ TriggerID j = rTriggerID req ∧
  Message j = rMessage req ∧ Event j = rEvent req ∧
  Payload j = rPayload req ∧ Manual j = rManual req ∧
  Debounced j = rDebounced req ∧ ForwardLogs j = rForwardLogs req ∧
  Options j = rOptions req ∧
  Domain j = DomainName db ∧ Prefix j = DBPrefix db ∧
  store w2 = store w ∧ calls w2 = calls w.
Proof.
  intros Hmono. unfold NewJob, time_Now, bind, ret; simpl.
  repeat split; try reflexivity; apply Hmono; lia.
Qed.

(** C2. [Ack] leaves the job in state [Done], [Nack msg] in state [Errored]
    with [Error = msg]; both set [FinishedAt] to the clock reading taken by
    the call and set [Event] and [Payload] to nil.  Every document the call
    submits to the store, by update or by re-creation, already carries these
    values, so no terminal job is persisted with [Event] or [Payload] data. *)
Theorem Ack_Nack_clear_transient (j : Job) (msg : string) (w : World Store) :
  let now := wall (tick w) in
  let terminal_doc (s : State) (d : Job) :=
    JState d = s ∧ FinishedAt d = now ∧ Event d = None ∧ Payload d = None in
  (let '((_, j'), w') := Ack' j w in
   terminal_doc Done j' ∧
   ∃ new, calls w' = calls w ++ new ∧ new ≠ [] ∧
          Forall (λ c, terminal_doc Done (call_doc c)) new) ∧
  (let '((_, j'), w') := Nack' msg j w in
   terminal_doc Errored j' ∧ Error j' = msg ∧
   ∃ new, calls w' = calls w ++ new ∧ new ≠ [] ∧
          Forall (λ c, terminal_doc Errored (call_doc c) ∧
                       Error (call_doc c) = msg) new).
Proof.
  intros now terminal_doc. split.
  - unfold Ack, bind, time_Now.
    set (j1 := set_Payload _ _). set (w1 := mkWorld _ _ _).
    destruct (Update_same_body j1 w1) as (Hb & _ & new & Hc & Hne & Hall).
    destruct (Update' j1 w1) as [[err j'] w']; simpl in *.
    apply same_body_fields in Hb as (H1 & H2 & H3 & H4 & _).
    split; [by unfold terminal_doc; rewrite H1, H2, H3, H4|].
    exists new. repeat split; [done..|].
    eapply Forall_impl; [exact Hall|]. intros c Hc'.
    apply same_body_fields in Hc' as (H1' & H2' & H3' & H4' & _).
    by unfold terminal_doc; rewrite H1', H2', H3', H4'.
  - unfold Nack, bind, time_Now.
    set (j1 := set_Payload _ _). set (w1 := mkWorld _ _ _).
    destruct (Update_same_body j1 w1) as (Hb & _ & new & Hc & Hne & Hall).
    destruct (Update' j1 w1) as [[err j'] w']; simpl in *.
    apply same_body_fields in Hb as (H1 & H2 & H3 & H4 & H5 & _).
    split; [by unfold terminal_doc; rewrite H1, H2, H3, H4|]. split; [by rewrite H5|].
    exists new. repeat split; [done..|].
    eapply Forall_impl; [exact Hall|]. intros c Hc'.
    apply same_body_fields in Hc' as (H1' & H2' & H3' & H4' & H5' & _).
    by unfold terminal_doc; rewrite H1', H2', H3', H4', H5'.
Qed.

(** C3. When the store answers the update with a not-found error, [Update]
    resets the job's id and rev to the empty string and submits it for
    creation; what the caller receives is the outcome of that creation, not
    the not-found error: once the store accepts, the job carries the identity
    and revision the store assigned and the caller receives nil.  Any other
    error of the update is handed to the caller as it is, the job is left as
    it was, and the store has been called exactly once. *)
Theorem Update_recreates_on_not_found (j : Job) (w : World Store) :
  let '(r, s) := UpdateDoc j (store w) in
  let w1 := mkWorld s (calls w ++ [CallUpdateDoc j]) (tick w) in
  match r with
  | inr rev => Update' j w = ((None, SetRev rev j), w1)
  | inl e =>
      if IsNotFoundError e then
        let j0 := SetRev "" (SetID "" j) in
        let '(r', s') := CreateDoc j0 s in
        let w2 :=
          mkWorld s' (calls w ++ [CallUpdateDoc j; CallCreateDoc j0]) (tick w) in
        JobID j0 = "" ∧ JobRev j0 = "" ∧
        Update' j w = Create' j0 w1 ∧
        match r' with
        | inr (id, rev) => Update' j w = ((None, SetRev rev (SetID id j)), w2)
        | inl e' => Update' j w = ((Some e', j0), w2)
        end
      else Update' j w = ((Some e, j), w1)
  end.
Proof.
  unfold Update, Create, bind, ret, couchdb_UpdateDoc, couchdb_CreateDoc.
  destruct (UpdateDoc j (store w)) as [[e|rev] s]; simpl; [|done].
  destruct (IsNotFoundError e); simpl; [|done].
  destruct (CreateDoc _ s) as [[e'|[id rev]] s']; simpl;
    rewrite <- app_assoc; simpl; repeat split; by destruct j.
Qed.

End BrokerProps.

(** ** Listing *)

Section FilterProps.
Variables (workerType : string) (state : State) (limit : Z).

#[local] Abbreviation P := (matches workerType state).
#[local] Abbreviation loop := (filter_loop workerType state limit).

Lemma filter_loop_fst (jobs returned : list Job) (n : nat) :
  (loop jobs returned n).1 =
  returned ++ cap (limit - Z.of_nat (length returned)) (List.filter P jobs).
Proof.
  revert returned n. induction jobs as [|j jobs IH]; intros returned n; simpl.
  - unfold cap. destruct (1 <=? _); by rewrite ?take_nil, app_nil_r.
  - destruct (P j) eqn:HP; [|apply IH].
    rewrite length_app; simpl.
    destruct (Z.eqb_spec (Z.of_nat (length returned + 1)) limit) as [Heq|Hne]; simpl.
    + unfold cap. replace (limit - Z.of_nat (length returned)) with 1 by lia.
      reflexivity.
    + rewrite IH, length_app, <- app_assoc; simpl. f_equal. unfold cap.
      destruct (Z.leb_spec 1 (limit - Z.of_nat (length returned)));
        destruct (Z.leb_spec 1 (limit - Z.of_nat (length returned + 1)));
        try lia; [|done].
      replace (Z.to_nat (limit - Z.of_nat (length returned)))
        with (S (Z.to_nat (limit - Z.of_nat (length returned + 1)))) by lia.
      reflexivity.
Qed.

(** How far the loop reads: either to the end without reaching the limit, or
    up to the match that makes the length equal to the limit. *)
Lemma filter_loop_scan (jobs returned : list Job) (n : nat) :
  Z.of_nat (length returned) < limit →
  ∃ k, (loop jobs returned n).2 = (n + k)%nat ∧ (k ≤ length jobs)%nat ∧
       (loop jobs returned n).1 = returned ++ List.filter P (take k jobs) ∧
       ((k = length jobs ∧ Z.of_nat (length (loop jobs returned n).1) < limit) ∨
        (Z.of_nat (length (loop jobs returned n).1) = limit ∧
         ∃ pre j, take k jobs = pre ++ [j] ∧ P j = true)).
Proof.
  revert returned n. induction jobs as [|j jobs IH]; intros returned n Hlt; simpl.
  - exists 0%nat. rewrite app_nil_r. repeat split; [lia|lia|]. by left.
  - destruct (P j) eqn:HP.
    + rewrite length_app; simpl.
      destruct (Z.eqb_spec (Z.of_nat (length returned + 1)) limit) as [Heq|Hne]; simpl.
      * exists 1%nat. simpl. rewrite HP.
        repeat split; [lia|lia|]. right. rewrite length_app; simpl.
        split; [done|]. by exists [], j.
      * destruct (IH (returned ++ [j]) (S n)) as (k & Hs & Hk & Hr & Hd).
        { rewrite length_app; simpl. lia. }
        exists (S k). simpl. rewrite HP, Hs, Hr, <- app_assoc.
        repeat split; [lia|lia|].
        rewrite Hr, <- app_assoc in Hd; simpl in Hd. simpl.
        destruct Hd as [[-> Hl]|[Hl (pre & j' & Hpre & HP')]]; [by left|right].
        split; [done|]. rewrite Hpre. by exists (j :: pre), j'.
    + destruct (IH returned (S n) Hlt) as (k & Hs & Hk & Hr & Hd).
      exists (S k). simpl. rewrite HP, Hs.
      repeat split; [lia|lia|done|].
      destruct Hd as [[-> Hl]|[Hl (pre & j' & Hpre & HP')]]; [by left|right].
      split; [done|]. rewrite Hpre. by exists (j :: pre), j'.
Qed.

Lemma FilterByWorkerAndState_cap (jobs : list Job) :
  FilterByWorkerAndState jobs workerType state limit =
  cap limit (List.filter P jobs).
Proof.
  unfold FilterByWorkerAndState. rewrite filter_loop_fst; simpl.
  by rewrite Z.sub_0_r.
Qed.

End FilterProps.

(** A limit below one is never reached: every match is returned. *)
Lemma FilterByWorkerAndState_unlimited (jobs : list Job) (workerType : string)
    (state : State) (limit : Z) :
  limit ≤ 0 →
  FilterByWorkerAndState jobs workerType state limit
  = List.filter (matches workerType state) jobs.
Proof.
  intros Hl. rewrite FilterByWorkerAndState_cap. unfold cap.
  by destruct (Z.leb_spec 1 limit); [lia|].
Qed.

Lemma Forall_filter_matches workerType state (jobs : list Job) :
  Forall (λ j, WorkerType j = workerType ∧ JState j = state)
         (List.filter (matches workerType state) jobs).
Proof.
  apply Forall_forall. intros j Hj%list_elem_of_In%List.filter_In.
  destruct Hj as [_ [H1 H2]%andb_prop].
  by apply String.eqb_eq in H1, H2.
Qed.

Lemma cap_sublist limit (l : list Job) : sublist (cap limit l) l.
Proof.
  unfold cap. destruct (1 <=? limit); [|done].
  rewrite <- (take_drop (Z.to_nat limit) l) at 2. by apply sublist_inserts_r.
Qed.

Lemma filter_sublist (f : Job → bool) (l : list Job) : sublist (List.filter f l) l.
Proof.
  induction l as [|x l IH]; simpl; [constructor|].
  destruct (f x); by constructor.
Qed.

(** C8, as the code has it.  For every list of jobs, worker type, state and
    limit [L] of at least one, [FilterByWorkerAndState] returns at most [L]
    jobs, all of the given worker type and state, in the order of the input
    (the first [L] matches); it reads the input only up to the match that
    completes the [L] results, and to the end when the input holds fewer
    than [L] matches. *)
Theorem FilterByWorkerAndState_limited (jobs : list Job) (workerType : string)
    (state : State) (limit : Z) :
  1 ≤ limit →
  let returned := FilterByWorkerAndState jobs workerType state limit in
  let scanned := FilterByWorkerAndState_scanned jobs workerType state limit in
  let found := List.filter (matches workerType state) jobs in
  Z.of_nat (length returned) ≤ limit ∧
  Forall (λ j, WorkerType j = workerType ∧ JState j = state) returned ∧
  returned = take (Z.to_nat limit) found ∧
  sublist returned jobs ∧
  returned = List.filter (matches workerType state) (take scanned jobs) ∧
  if limit <=? Z.of_nat (length found)
  then Z.of_nat (length returned) = limit ∧
       ∃ pre j, take scanned jobs = pre ++ [j] ∧ matches workerType state j = true
  else scanned = length jobs.
Proof.
  intros Hl returned scanned found.
  assert (Hcap : returned = take (Z.to_nat limit) found).
  { unfold returned. rewrite FilterByWorkerAndState_cap. unfold cap.
    by destruct (Z.leb_spec 1 limit); [|lia]. }
  assert (Hlen : Z.of_nat (length returned) ≤ limit).
  { rewrite Hcap, length_take. lia. }
  destruct (filter_loop_scan workerType state limit jobs [] 0)
    as (k & Hs & Hk & Hr & Hd); [simpl; lia|].
  fold (FilterByWorkerAndState_scanned jobs workerType state limit) in Hs.
  fold scanned in Hs. simpl in Hs, Hr. subst k.
  change ((filter_loop workerType state limit jobs [] 0).1) with returned in *.
  repeat split; [done| |done| |done|].
  - rewrite Hcap. eapply Forall_take, Forall_filter_matches.
  - rewrite Hcap. etrans; [apply sublist_take|apply filter_sublist].
  - destruct (Z.leb_spec limit (Z.of_nat (length found))) as [Hge|Hlt].
    + destruct Hd as [[_ Hd]|[Hd Hex]]; [|done].
      rewrite Hcap, length_take in Hd. lia.
    + destruct Hd as [[Hd _]|[Hd _]]; [done|].
      rewrite Hcap, length_take in Hd. lia.
Qed.

(** C8, as stated, fails for a limit of zero: the only length check follows
    an append, so the length is never found equal to zero and the one
    matching job is returned. *)
Lemma FilterByWorkerAndState_limit_zero :
  ¬ (∀ (jobs : list Job) (workerType : string) (state : State) (limit : Z),
       Z.of_nat (length (FilterByWorkerAndState jobs workerType state limit))
       ≤ limit).
Proof.
  intros H.
  specialize (H [sample_job "a" "konnector" Queued 1] "konnector" Queued 0).
  vm_compute in H. by apply H.
Qed.

Lemma FilterByWorkerAndState_limited_witness :
  1 ≤ 2 ∧
  FilterByWorkerAndState
    [sample_job "a" "konnector" Done 3; sample_job "b" "thumbnail" Done 1;
     sample_job "c" "konnector" Done 2; sample_job "d" "konnector" Done 4]
    "konnector" Done 2
  = [sample_job "a" "konnector" Done 3; sample_job "c" "konnector" Done 2] ∧
  FilterByWorkerAndState_scanned
    [sample_job "a" "konnector" Done 3; sample_job "b" "thumbnail" Done 1;
     sample_job "c" "konnector" Done 2; sample_job "d" "konnector" Done 4]
    "konnector" Done 2
  = 3%nat.
Proof.
  split; [lia|].
  destruct (FilterByWorkerAndState_limited
              [sample_job "a" "konnector" Done 3; sample_job "b" "thumbnail" Done 1;
               sample_job "c" "konnector" Done 2; sample_job "d" "konnector" Done 4]
              "konnector" Done 2 ltac:(lia)) as (_ & _ & Hres & _).
  split; [rewrite Hres|]; vm_compute; reflexivity.
Defined.

(** [insertion_sort] meets the contract of [sort.Slice]. *)
Lemma insert_sorted_perm (x : Job) (l : list Job) :
  insert_sorted less_QueuedAt x l ≡ₚ x :: l.
Proof.
  induction l as [|y l IH]; simpl; [done|].
  destruct (less_QueuedAt y x); [|done].
  rewrite IH. apply Permutation_swap.
Qed.

Lemma insert_sorted_sorted (x : Job) (l : list Job) :
  StronglySorted QueuedAt_le l →
  StronglySorted QueuedAt_le (insert_sorted less_QueuedAt x l).
Proof.
  induction 1 as [|y l Hs IH Hy]; simpl; [by repeat constructor|].
  unfold less_QueuedAt, Before at 1.
  destruct (Z.ltb_spec (QueuedAt y) (QueuedAt x)) as [Hlt|Hge].
  - constructor; [done|]. rewrite insert_sorted_perm.
    constructor; [unfold QueuedAt_le; lia|done].
  - constructor; [by constructor|]. constructor; [done|].
    eapply Forall_impl; [exact Hy|]. unfold QueuedAt_le. intros; lia.
Qed.

#[export] Instance insertion_sort_SortSlice : SortSlice insertion_sort.
Proof.
  split.
  - induction jobs as [|x l IH]; simpl; [done|].
    by rewrite insert_sorted_perm, IH.
  - induction jobs as [|x l IH]; simpl; [constructor|].
    by apply insert_sorted_sorted.
Qed.

Lemma filter_none (f : Job → bool) (l : list Job) :
  Forall (λ j, f j = false) l → List.filter f l = [].
Proof. induction 1 as [|j l Hj _ IH]; simpl; [done|]. by rewrite Hj. Qed.

Lemma count_state_group workerType (s s' : State) (n : nat) (l : list Job) :
  (length (List.filter (in_state s)
             (take n (List.filter (matches workerType s') l)))
   ≤ if String.eqb s' s then n else 0)%nat.
Proof.
  destruct (String.eqb_spec s' s) as [->|Hne].
  - etrans; [apply List.filter_length_le|]. rewrite length_take. lia.
  - rewrite filter_none; [done|].
    apply Forall_take. eapply Forall_impl; [apply Forall_filter_matches|].
    intros j [_ Hj]. unfold in_state. apply String.eqb_neq. congruence.
Qed.

Section LastsProps.
Context (sort_Slice : (Job → Job → bool) → list Job → list Job).
Context `{!SortSlice sort_Slice}.

(** C7. [GetLastsJobs] sorts the jobs into non-decreasing order of
    [QueuedAt]; its result is the concatenation, for the states [Queued],
    [Running], [Done], [Errored] in this order, of the first 50 jobs of the
    sorted slice that have the given worker type and that state.  For no
    state does the result hold more than 50 jobs, and the error is nil. *)
Theorem GetLastsJobs_groups (jobs : list Job) (workerType : string) :
  let r := GetLastsJobs sort_Slice jobs workerType in
  let group (s : State) :=
    take 50 (List.filter (matches workerType s) (lj_jobs r)) in
  lj_jobs r ≡ₚ jobs ∧ StronglySorted QueuedAt_le (lj_jobs r) ∧
  lj_err r = None ∧
  lj_result r = group Queued ++ group Running ++ group Done ++ group Errored ∧
  ∀ s : State, (length (List.filter (in_state s) (lj_result r)) ≤ 50)%nat.
Proof.
  intros r group.
  assert (Hres : lj_result r =
                 group Queued ++ group Running ++ group Done ++ group Errored).
  { unfold r, GetLastsJobs; simpl.
    rewrite !FilterByWorkerAndState_cap, <- !app_assoc. reflexivity. }
  split; [apply sort_Slice_perm|]. split; [apply sort_Slice_sorted|].
  split; [done|]. split; [done|].
  intros s. rewrite Hres, !List.filter_app, !length_app. unfold group.
  pose proof (count_state_group workerType s Queued 50 (lj_jobs r)) as H1.
  pose proof (count_state_group workerType s Running 50 (lj_jobs r)) as H2.
  pose proof (count_state_group workerType s Done 50 (lj_jobs r)) as H3.
  pose proof (count_state_group workerType s Errored 50 (lj_jobs r)) as H4.
  destruct (String.eqb_spec Queued s) as [E1|?];
    destruct (String.eqb_spec Running s) as [E2|?];
    destruct (String.eqb_spec Done s) as [E3|?];
    destruct (String.eqb_spec Errored s) as [E4|?];
    try lia; exfalso; subst s; discriminate.
Qed.

(** C10. [GetLastsJobs] sorts the caller's slice in place: after the call
    the slice holds the same jobs in non-decreasing order of [QueuedAt], so
    an input that was not in that order has been changed. *)
Theorem GetLastsJobs_reorders_input (jobs : list Job) (workerType : string) :
  ¬ StronglySorted QueuedAt_le jobs →
  let r := GetLastsJobs sort_Slice jobs workerType in
  lj_jobs r ≡ₚ jobs ∧ StronglySorted QueuedAt_le (lj_jobs r) ∧
  lj_jobs r ≠ jobs.
Proof.
  intros Hns r.
  split; [apply sort_Slice_perm|]. split; [apply sort_Slice_sorted|].
  intros Heq. apply Hns. rewrite <- Heq. apply sort_Slice_sorted.
Qed.

End LastsProps.

(** ** Full traversal *)

(** Byte-wise order on identities. *)
Lemma compare_refl (s : string) : String.compare s s = Eq.
Proof.
  pose proof (String.compare_antisym s s) as H.
  by destruct (String.compare s s).
Qed.

Lemma leb_refl (s : string) : String.leb s s = true.
Proof. unfold String.leb. by rewrite compare_refl. Qed.

Lemma ltb_leb (s t : string) : String.ltb s t = true → String.leb s t = true.
Proof. unfold String.ltb, String.leb. by destruct (String.compare s t). Qed.

Lemma ltb_not_leb (s t : string) : String.ltb s t = true → String.leb t s = false.
Proof.
  unfold String.ltb, String.leb. rewrite (String.compare_antisym t s).
  by destruct (String.compare s t).
Qed.

Lemma ltb_irrefl (s : string) : String.ltb s s = false.
Proof. unfold String.ltb. by rewrite compare_refl. Qed.

Lemma leb_empty (s : string) : String.leb "" s = true.
Proof. by destruct s. Qed.

(** The documents not below [key]. *)
#[local] Abbreviation from_key key :=
  (filter (λ j : Job, String.leb key (JobID j) = true)).

Lemma from_key_all (key : string) (l : list Job) :
  Forall (λ j, String.leb key (JobID j) = true) l → from_key key l = l.
Proof.
  induction 1 as [|j l Hj _ IH]; [done|].
  by rewrite filter_cons_True, IH.
Qed.

Lemma from_key_none (key : string) (l : list Job) :
  Forall (λ j, String.leb key (JobID j) = false) l → from_key key l = [].
Proof.
  induction 1 as [|j l Hj _ IH]; [done|].
  rewrite filter_cons_False; [done|]. by rewrite Hj.
Qed.

(** Asking for the page that starts at the identity of a stored document
    yields that document and its successors. *)
Lemma from_key_head (done : list Job) (r : Job) (tail : list Job) :
  identity_ordered (done ++ r :: tail) →
  from_key (JobID r) (done ++ r :: tail) = r :: tail.
Proof.
  intros Hs. apply StronglySorted_app in Hs as (Hcross & _ & Hr).
  apply StronglySorted_cons in Hr as [Hr _].
  rewrite filter_app, from_key_none, from_key_all; [done| |].
  - constructor; [apply leb_refl|].
    eapply Forall_impl; [exact Hr|]. intros y Hy. by apply ltb_leb.
  - apply Forall_forall. intros x Hx. apply ltb_not_leb.
    apply (Hcross x r); [done|]. by left.
Qed.

Lemma identity_ordered_NoDup (docs : list Job) :
  identity_ordered docs → NoDup (JobID <$> docs).
Proof.
  induction 1 as [|x l _ IH Hx]; simpl; constructor; [|done].
  intros (y & Heq & Hy)%list_elem_of_fmap.
  rewrite Forall_forall in Hx. specialize (Hx y Hy). unfold JobID_lt in Hx.
  rewrite Heq, ltb_irrefl in Hx. discriminate.
Qed.

Section AllJobsProps.
Context {Err : Type}.

#[local] Abbreviation paged := (GetAllDocs_paged (Err:=Err)).

(** One lap after the other: with [finalJobs] holding the documents before
    the cursor and the cursor on the first document not yet appended, the loop
    ends with all documents, within as many laps as documents remain plus
    one. *)
Lemma GetAllJobs_loop_paged (docs : list Job) (fuel : nat) :
  identity_ordered docs →
  ∀ (finalJobs rest : list Job) (startkey : string),
    docs = finalJobs ++ rest →
    from_key startkey docs = rest →
    (length rest < fuel)%nat →
    GetAllJobs_loop paged fuel docs startkey finalJobs = Some (inr docs).
Proof.
  intros Hord. induction fuel as [|fuel IH]; intros finalJobs rest startkey Hd Hk Hf;
    [lia|].
  cbn [GetAllJobs_loop]. unfold GetAllDocs_paged at 1. cbn [Limit StartKey].
  unfold Job in *. rewrite Hk. set (n := Z.to_nat 10001). assert (Hn : (2 ≤ n)%nat) by (unfold n; lia).
  clearbody n.
  destruct (last (take n rest)) as [lastJob|] eqn:Hlast.
  - apply last_Some in Hlast as [init Hinit].
    rewrite Hinit, List.removelast_last.
    set (tail := drop n rest).
    assert (Hrest : rest = init ++ lastJob :: tail).
    { rewrite <- (take_drop n rest) at 1. by rewrite Hinit, <- app_assoc. }
    destruct init as [|j0 init]; cbn [length Nat.eqb].
    + rewrite app_nil_r. do 2 f_equal. rewrite Hd. f_equal.
      assert (Hl : length (take n rest) = 1%nat) by by rewrite Hinit.
      rewrite length_take in Hl.
      destruct rest as [|r [|r' rest]]; simpl in Hl; [lia| |lia].
      destruct n as [|[|n]]; simpl in Hinit; [lia|lia|]. by inversion Hinit.
    + clearbody tail. clear Hinit Hk. subst rest.
      apply (IH _ (lastJob :: tail)).
      * by rewrite Hd, <- app_assoc.
      * pose proof Hord as Hord'. rewrite Hd, app_assoc in Hord'.
        rewrite Hd, app_assoc. exact (from_key_head _ _ _ Hord').
      * rewrite length_app in Hf. simpl in *. lia.
  - apply last_None in Hlast.
    assert (rest = []) as ->.
    { destruct rest; [done|]. destruct n; [lia|]. discriminate. }
    by rewrite Hd, app_nil_r.
Qed.

(** C1. For a tenant whose store holds the job documents [docs], in
    ascending order of their pairwise distinct identities, and answers every
    request with the page of at most 10001 documents that starts at the
    requested key, [GetAllJobs] ends and returns exactly [docs]: each document
    once, none twice, whatever their number.  The loop needs at most one lap
    per document and one more. *)
Theorem GetAllJobs_complete (docs : list Job) (fuel : nat) :
  identity_ordered docs →
  (length docs < fuel)%nat →
  GetAllJobs paged fuel docs = Some (inr docs) ∧
  NoDup (JobID <$> docs).
Proof.
  intros Hord Hf. split; [|by apply identity_ordered_NoDup].
  unfold GetAllJobs. apply (GetAllJobs_loop_paged docs fuel Hord [] docs); [done| |done].
  apply from_key_all, Forall_forall. intros j _. apply leb_empty.
Qed.

End AllJobsProps.

(** ** Blocking wait *)

Section WaitProps.
Context {Err : Type}.

#[local] Abbreviation failed :=
  (Some (NewError (Err:=Err) "The konnector failed on account deletion")).

Lemma terminal_false (e : RTEvent) :
  terminal e = false →
  String.eqb (event_state e) Done = false ∧
  String.eqb (event_state e) Errored = false.
Proof. unfold terminal. by intros [? ?]%orb_false_elim. Qed.

(** The loop skips the events that are not terminal and is decided by the
    first terminal one it receives before the deadline. *)
Lemma WaitUntilDone_loop_first (deadline : Time) (channel : list (Time * RTEvent)) :
  (∀ pre e post,
     receivable deadline channel = pre ++ e :: post →
     Forall (λ e', terminal e' = false) pre →
     (event_state e = Done → WaitUntilDone_loop (Err:=Err) deadline channel = None) ∧
     (event_state e = Errored → WaitUntilDone_loop deadline channel = failed)) ∧
  (Forall (λ e', terminal e' = false) (receivable deadline channel) →
   WaitUntilDone_loop (Err:=Err) deadline channel = None).
Proof.
  induction channel as [|[t e0] channel [IH1 IH2]]; simpl.
  - split; [|done]. intros [|??] ???; discriminate.
  - destruct (t <? deadline); [|split; [|done]; intros [|??] ???; discriminate].
    split.
    + intros [|e' pre] e post [= ? Hrest] Hpre; simplify_eq.
      * split; intros ->; [done|]. reflexivity.
      * apply Forall_cons in Hpre as [[-> ->]%terminal_false Hpre].
        by apply (IH1 pre e post).
    + intros [[-> ->]%terminal_false Hall]%Forall_cons. by apply IH2.
Qed.

(** An event received before the deadline that is in neither final state
    changes nothing. *)
Lemma WaitUntilDone_loop_skip (deadline : Time)
    (pre rest : list (Time * RTEvent)) :
  Forall (λ p, p.1 < deadline ∧ terminal p.2 = false) pre →
  WaitUntilDone_loop (Err:=Err) deadline (pre ++ rest)
  = WaitUntilDone_loop deadline rest.
Proof.
  induction 1 as [|[t e] pre [Ht He] _ IH]; simpl in *; [done|].
  destruct (Z.ltb_spec t deadline); [|lia].
  apply terminal_false in He as [-> ->]. exact IH.
Qed.

(** What the loop reads off a document, told by the document itself: a
    JSON document reports the string under its ["state"] key, a job its
    [State]. *)
Lemma reported_state (s : State) (e : RTEvent) :
  match Doc e with
  | CouchJSONDoc m | RealtimeJSONDoc m => m !! "state" = Some (AnyString s)
  | JobDoc j => JState j = s
  | OtherDoc => False
  end →
  event_state e = s.
Proof.
  unfold event_state, state_field. destruct (Doc e) as [m|m|j|]; try done.
  - by intros ->.
  - by intros ->.
Qed.

Lemma unreported_state (e : RTEvent) :
  (∀ s, s = Done ∨ s = Errored →
        ¬ match Doc e with
          | CouchJSONDoc m | RealtimeJSONDoc m => m !! "state" = Some (AnyString s)
          | JobDoc j => JState j = s
          | OtherDoc => False
          end) →
  terminal e = false.
Proof.
  intros H. unfold terminal, event_state, state_field.
  pose proof (H Done (or_introl eq_refl)) as H1.
  pose proof (H Errored (or_intror eq_refl)) as H2.
  destruct (Doc e) as [m|m|j|]; [| | |done].
  - destruct (m !! "state") as [[s|]|]; [|done..].
    apply orb_false_intro; apply String.eqb_neq; congruence.
  - destruct (m !! "state") as [[s|]|]; [|done..].
    apply orb_false_intro; apply String.eqb_neq; congruence.
  - apply orb_false_intro; apply String.eqb_neq; congruence.
Qed.

(** C4. Once the subscription is set up, [WaitUntilDone] starts a timer of
    10 minutes (600 000 000 000 ns) and is decided by the first event it
    receives before the timer fires whose document carries state ["done"] or
    ["errored"], be it a job or a JSON document of either package with that
    string under its ["state"] key: it returns nil for ["done"] and the error
    for ["errored"].  When every event received before the timer fires
    carries neither state, and the next event, if there is one, is not
    receivable before the timer fires, it returns nil.  An error of the
    subscription itself is returned at once. *)
Theorem WaitUntilDone_outcome (now : Time) (channel : list (Time * RTEvent)) :
  let deadline := now + 10 * Minute in
  let carries (s : State) (e : RTEvent) : Prop :=
    match Doc e with
    | CouchJSONDoc m | RealtimeJSONDoc m => m !! "state" = Some (AnyString s)
    | JobDoc j => JState j = s
    | OtherDoc => False
    end in
  let passed_over (p : Time * RTEvent) : Prop :=
    p.1 < deadline ∧ ¬ carries "done" p.2 ∧ ¬ carries "errored" p.2 in
  let result := WaitUntilDone (Err:=Err) None now channel in
  waitTimeout = 600000000000 ∧
  (∀ pre t e post,
     channel = pre ++ (t, e) :: post → Forall passed_over pre → t < deadline →
     (carries "done" e → result = None) ∧
     (carries "errored" e →
      result = Some (NewError "The konnector failed on account deletion"))) ∧
  (∀ pre post,
     channel = pre ++ post → Forall passed_over pre →
     match post with [] => True | (t, _) :: _ => deadline ≤ t end →
     result = None) ∧
  (∀ err : Err, WaitUntilDone (Some err) now channel = Some (WatchError err)).
Proof.
  intros deadline carries passed_over result.
  assert (Hskip : ∀ pre rest, channel = pre ++ rest → Forall passed_over pre →
                              result = WaitUntilDone_loop deadline rest).
  { intros pre rest -> Hpre. unfold result, WaitUntilDone.
    change (now + waitTimeout) with deadline.
    apply WaitUntilDone_loop_skip.
    eapply Forall_impl; [exact Hpre|]. intros [t e] (Ht & Hd & He).
    split; [exact Ht|]. apply unreported_state.
    intros s [-> | ->]; [exact Hd|exact He]. }
  split; [reflexivity|]. split; [|split; [|done]].
  - intros pre t e post Hch Hpre Ht.
    rewrite (Hskip pre ((t, e) :: post) Hch Hpre). cbn [WaitUntilDone_loop].
    destruct (Z.ltb_spec t deadline); [|lia].
    split; intros Hs; apply (reported_state _ e) in Hs; by rewrite Hs.
  - intros pre post Hch Hpre Hpost. rewrite (Hskip pre post Hch Hpre).
    destruct post as [|[t e] post]; [done|]. cbn [WaitUntilDone_loop].
    by destruct (Z.ltb_spec t deadline); [lia|].
Qed.

End WaitProps.

(** ** Cloning *)

Module HeapProps.
Import Heap.

#[export] Instance extends_refl : Reflexive extends.
Proof. by split. Qed.

#[export] Instance extends_trans : Transitive extends.
Proof. intros m1 m2 m3 [??] [??]. split; by etrans. Qed.

Lemma extends_lookup_array m m' i a :
  extends m m' → arrays m !! i = Some a → arrays m' !! i = Some a.
Proof. intros [Ha _] Hi. by eapply prefix_lookup_Some. Qed.

Lemma extends_bytes_of m m' (f : option Slice) :
  extends m m' → valid_slice m f → bytes_of m' <$> f = bytes_of m <$> f.
Proof.
  intros Hext Hv. destruct f as [s|]; [|done]. destruct Hv as (a & Ha & _).
  pose proof (extends_lookup_array _ _ _ _ Hext Ha) as Ha'.
  simpl. unfold bytes_of. by rewrite Ha, Ha'.
Qed.

Lemma extends_valid_slice m m' (f : option Slice) :
  extends m m' → valid_slice m f → valid_slice m' f.
Proof.
  intros Hext Hv. destruct f as [s|]; [|done]. destruct Hv as (a & Ha & Hl).
  exists a. split; [|done]. by eapply extends_lookup_array.
Qed.

(** A slice of the old memory sits below every freshly allocated array. *)
Lemma valid_slice_below m (s : Slice) :
  valid_slice m (Some s) → (arr s < length (arrays m))%nat.
Proof. intros (a & Ha & _). by eapply lookup_lt_Some. Qed.

Lemma length_bytes_of m (s : Slice) :
  valid_slice m (Some s) → length (bytes_of m s) = len s.
Proof.
  intros (a & Ha & Hl). unfold bytes_of. rewrite Ha; simpl.
  rewrite length_take, length_drop. lia.
Qed.

(** One re-allocation: the new slice reads the same bytes from a fresh
    array, and nothing else changes. *)
Lemma reallocate_fresh (f : option Slice) (m : Mem) :
  valid_slice m f →
  extends m (reallocate f m).2 ∧
  options (reallocate f m).2 = options m ∧
  bytes_of (reallocate f m).2 <$> (reallocate f m).1 = bytes_of m <$> f ∧
  valid_slice (reallocate f m).2 (reallocate f m).1 ∧
  match (reallocate f m).1 with
  | Some s' => (length (arrays m) ≤ arr s')%nat
  | None => f = None
  end.
Proof.
  intros Hv. destruct f as [tmp|]; simpl; [|done].
  set (m1 := mkMem (arrays m ++ [replicate (len tmp) Byte.x00]) (options m)).
  assert (Hext : extends m m1) by (split; [by apply prefix_app_r|done]).
  assert (Hb : bytes_of m1 tmp = bytes_of m tmp).
  { by injection (extends_bytes_of m m1 (Some tmp) Hext Hv). }
  unfold copy; cbn [len arr off]. rewrite Nat.min_id, Hb.
  replace (arrays m1 !! length (arrays m))
    with (Some (replicate (len tmp) Byte.x00))
    by (symmetry; apply list_lookup_middle; done).
  cbn [arrays options m1].
  rewrite (take_ge (bytes_of m tmp)) by (rewrite length_bytes_of; [lia|done]).
  rewrite drop_replicate, Nat.add_0_l, Nat.sub_diag, app_nil_r; simpl.
  replace (<[length (arrays m) := bytes_of m tmp]>
             (arrays m ++ [replicate (len tmp) Byte.x00]))
    with (arrays m ++ [bytes_of m tmp])
    by (rewrite insert_app_r_alt, Nat.sub_diag by done; done).
  split; [split; [by apply prefix_app_r|done]|]. split; [done|].
  assert (Hl : (arrays m ++ [bytes_of m tmp]) !! length (arrays m)
               = Some (bytes_of m tmp)) by by apply list_lookup_middle.
  split; [|split; [|done]].
  - unfold bytes_of at 1; cbn [arrays arr off len]. rewrite Hl; simpl.
    f_equal. apply take_ge. by rewrite length_bytes_of.
  - exists (bytes_of m tmp). split; [done|]. simpl. by rewrite length_bytes_of.
Qed.

(** The first block of [Clone]: a non-nil [Options] is copied into a new
    object. *)
Lemma new_options_fresh (p : loc) (o : JobOptions) (m : Mem) :
  options m !! p = Some o →
  extends m (new_options p m).2 ∧
  arrays (new_options p m).2 = arrays m ∧
  options (new_options p m).2 !! (new_options p m).1 = Some o ∧
  (new_options p m).1 ≠ p.
Proof.
  intros Hp. unfold new_options; simpl. rewrite Hp; simpl.
  split; [split; [done|by apply prefix_app_r]|]. split; [done|].
  split; [by apply list_lookup_middle|].
  apply lookup_lt_Some in Hp. lia.
Qed.

Lemma separate_old_fresh m (f g : option Slice) :
  valid_slice m f →
  match g with Some s' => (length (arrays m) ≤ arr s')%nat | None => True end →
  separate_slices f g.
Proof.
  destruct f as [s|], g as [s'|]; simpl; try done.
  intros Hv%valid_slice_below Hg. lia.
Qed.

Lemma fresh_weaken m m' (f g : option Slice) :
  extends m m' →
  match g with Some s' => (length (arrays m') ≤ arr s')%nat | None => f = None end →
  match g with Some s' => (length (arrays m) ≤ arr s')%nat | None => True end.
Proof.
  intros [Hpre _] Hg. destruct g as [s'|]; [|done].
  apply prefix_length in Hpre. lia.
Qed.

(** C9. On a job whose slices and [Options] pointer refer to allocated
    memory, [Clone] returns a job that reads, field by field, the same values
    as the receiver did before the call, and the receiver still reads these
    values afterwards.  After the call no [JobOptions] object and no array
    behind [Message], [Event] or [Payload] is reachable from both: the clone
    points to a new [JobOptions] object and keeps the arrays the receiver had,
    while the receiver's three slices have been pointed to new arrays holding
    copies of the bytes.  Memory allocated before the call is not written. *)
Theorem Clone_deep_copy (j : JobH) (m : Mem) :
  valid_job m j →
  let '(cloned, j', m') := Clone j m in
  view m' cloned = view m j ∧
  view m' j' = view m j ∧
  no_shared_storage cloned j' ∧
  extends m m' ∧
  valid_job m' cloned ∧ valid_job m' j'.
Proof.
  intros (HvM & HvE & HvP & HvO). unfold Clone.
  (* the options block *)
  set (r0 := match Options j with
             | Some p => let '(q, m0) := new_options p m in
                         (set_Options (Some q) j, m0)
             | None => (j, m)
             end).
  assert (H0 : extends m r0.2 ∧ arrays r0.2 = arrays m ∧
               Message r0.1 = Message j ∧ Event r0.1 = Event j ∧
               Payload r0.1 = Payload j ∧
               view r0.2 r0.1 = view m j ∧
               Options r0.1 ≫= (λ p, options r0.2 !! p)
                 = Options j ≫= (λ p, options m !! p) ∧
               Options j ≫= (λ p, options r0.2 !! p)
                 = Options j ≫= (λ p, options m !! p) ∧
               separate_pointers (Options r0.1) (Options j) ∧
               match Options r0.1 with
               | Some q => is_Some (options r0.2 !! q) | None => True end).
  { unfold r0. destruct (Options j) as [p|] eqn:HO.
    - destruct HvO as [o Ho].
      destruct (new_options_fresh p o m Ho) as (Hext & Harr & Hq & Hne).
      destruct (new_options p m) as [q m0]; simpl in *.
      assert (Hp0 : options m0 !! p = Some o).
      { destruct Hext as [_ Hpre]. by eapply prefix_lookup_Some. }
      repeat split; try done; try apply Hext;
        try (by unfold set_Options; simpl; rewrite ?Hq, ?Hp0, ?Ho).
      unfold view, set_Options; simpl. rewrite Hq, HO; simpl. rewrite Ho. f_equal;
        by (apply extends_bytes_of; [split; [by rewrite Harr|apply Hext]|]).
    - simpl. rewrite HO. by repeat split. }
  destruct r0 as [cloned m0]; simpl in H0.
  destruct H0 as (E0 & A0 & cM & cE & cP & V0 & O0 & O0' & S0 & VO0).
  (* the three re-allocations *)
  pose proof (extends_valid_slice _ _ _ E0 HvM) as HvM0.
  pose proof (reallocate_fresh (Message j) m0 HvM0) as (E1 & O1 & B1 & V1 & F1).
  destruct (reallocate (Message j) m0) as [f1 m1]; simpl in *.
  assert (E01 : extends m m1) by by etrans.
  pose proof (extends_valid_slice _ _ _ E01 HvE) as HvE1.
  pose proof (reallocate_fresh (Event j) m1 HvE1) as (E2 & O2 & B2 & V2 & F2).
  destruct (reallocate (Event j) m1) as [f2 m2]; simpl in *.
  assert (E02 : extends m m2) by by etrans.
  pose proof (extends_valid_slice _ _ _ E02 HvP) as HvP2.
  pose proof (reallocate_fresh (Payload j) m2 HvP2) as (E3 & O3 & B3 & V3 & F3).
  destruct (reallocate (Payload j) m2) as [f3 m3]; simpl in *.
  assert (E03 : extends m m3) by by etrans.
  assert (E13 : extends m1 m3) by by etrans.
  assert (E0_3 : extends m0 m3) by (etrans; [exact E1|done]).
  assert (Hopts : options m3 = options m0) by congruence.
  (* freshness of the three new slices, seen from the old memory *)
  assert (G1 : match f1 with Some s' => (length (arrays m) ≤ arr s')%nat
                           | None => True end).
  { rewrite <- A0. destruct f1; [done|done]. }
  assert (G2 : match f2 with Some s' => (length (arrays m) ≤ arr s')%nat
                           | None => True end)
    by exact (fresh_weaken _ _ _ _ E01 F2).
  assert (G3 : match f3 with Some s' => (length (arrays m) ≤ arr s')%nat
                           | None => True end)
    by exact (fresh_weaken _ _ _ _ E02 F3).
  unfold set_Payload, set_Event, set_Message; simpl.
  repeat split.
  - (* the clone reads the same values *)
    rewrite <- V0. unfold view. rewrite Hopts. f_equal;
      apply extends_bytes_of; try done;
      rewrite ?cM, ?cE, ?cP; by eapply extends_valid_slice.
  - (* so does the receiver *)
    unfold view; simpl. rewrite Hopts, O0'. f_equal.
    + rewrite (extends_bytes_of m1 m3 f1 E13 V1), B1.
      by apply extends_bytes_of.
    + rewrite (extends_bytes_of m2 m3 f2 E3 V2), B2.
      by apply extends_bytes_of.
    + rewrite B3. by apply extends_bytes_of.
  - by destruct (Options cloned), (Options j); simpl in *.
  - rewrite cM, cE, cP, !Forall_cons, !Forall_nil.
    repeat split; by apply (separate_old_fresh m).
  - apply E03.
  - apply E03.
  - rewrite cM. exact (extends_valid_slice m m3 _ E03 HvM).
  - rewrite cE. exact (extends_valid_slice m m3 _ E03 HvE).
  - rewrite cP. exact (extends_valid_slice m m3 _ E03 HvP).
  - rewrite Hopts. exact VO0.
  - exact (extends_valid_slice m1 m3 _ E13 V1).
  - exact (extends_valid_slice m2 m3 _ E3 V2).
  - done.
  - simpl. destruct (Options j) as [p|]; [|done]. destruct HvO as [o Ho].
    exists o. destruct E03 as [_ Hpre]. by eapply prefix_lookup_Some.
Qed.

End HeapProps.

(** ** Message decoding *)

Module JSONProps.
Import JSON.

(** Each scanner hands back a suffix of its input, and a proper one when
    it accepts something. *)
Lemma skip_space_length (s : list byte) : (length (skip_space s) ≤ length s)%nat.
Proof. induction s as [|c s IH]; simpl; [done|]. destruct (is_space c); simpl; lia. Qed.

Lemma span_digits_length (s : list byte) :
  (length (span_digits s).2 ≤ length s)%nat.
Proof.
  induction s as [|c s IH]; simpl; [done|].
  destruct (is_digit c); [|done]. destruct (span_digits s); simpl in *. lia.
Qed.

Lemma scan_exponent_length lit s l r :
  scan_exponent lit s = Some (l, r) → (length r ≤ length s)%nat.
Proof.
  unfold scan_exponent. destruct s as [|e s']; [by intros [= _ <-]|].
  destruct (is_byte x65 e || is_byte x45 e); [|by intros [= _ <-]].
  set (p := match s' with [] => _ | _ => _ end).
  assert (Hp : (length p.2 ≤ length s')%nat).
  { unfold p. destruct s' as [|c t]; [done|].
    destruct (is_byte x2b c || is_byte x2d c); simpl; lia. }
  destruct p as [sign s'']. pose proof (span_digits_length s'') as Hd.
  destruct (span_digits s'') as [[|d0 d] r']; [done|].
  intros [= _ <-]. simpl in *. lia.
Qed.

Lemma scan_fraction_length lit s l r :
  scan_fraction lit s = Some (l, r) → (length r ≤ length s)%nat.
Proof.
  unfold scan_fraction. destruct s as [|c s']; [apply scan_exponent_length|].
  destruct (is_byte x2e c); [|apply scan_exponent_length].
  pose proof (span_digits_length s') as Hd.
  destruct (span_digits s') as [[|d0 d] r']; [done|].
  intros H%scan_exponent_length. simpl in *. lia.
Qed.

Lemma scan_digits_length sign s l r :
  scan_digits sign s = Some (l, r) → (length r < length s)%nat.
Proof.
  unfold scan_digits. destruct s as [|c s']; [done|].
  destruct (is_byte x30 c).
  - intros H%scan_fraction_length. simpl. lia.
  - destruct (is_digit c); [|done]. pose proof (span_digits_length s') as Hd.
    destruct (span_digits s') as [d r']. intros H%scan_fraction_length.
    simpl in *. lia.
Qed.

Lemma scan_number_length s l r :
  scan_number s = Some (l, r) → (length r < length s)%nat.
Proof.
  unfold scan_number. destruct s as [|c s']; [done|].
  destruct (is_byte x2d c); intros H%scan_digits_length; simpl in *; lia.
Qed.

Lemma strip_prefix_length p s r :
  strip_prefix p s = Some r → length s = (length p + length r)%nat.
Proof.
  revert s. induction p as [|a p IH]; intros [|b s]; simpl; try done.
  - by intros [= <-].
  - by intros [= <-].
  - destruct (Byte.eqb a b); [|done]. intros H%IH. lia.
Qed.

Lemma scan_literal_length s v r :
  scan_literal s = Some (v, r) → (length r < length s)%nat.
Proof.
  unfold scan_literal.
  destruct (strip_prefix (bytes "true") s) as [r1|] eqn:H1.
  { intros [= _ <-]. apply strip_prefix_length in H1. simpl in H1. lia. }
  destruct (strip_prefix (bytes "false") s) as [r2|] eqn:H2.
  { intros [= _ <-]. apply strip_prefix_length in H2. simpl in H2. lia. }
  destruct (strip_prefix (bytes "null") s) as [r3|] eqn:H3.
  { intros [= _ <-]. apply strip_prefix_length in H3. simpl in H3. lia. }
  destruct (scan_number s) as [[lit r']|] eqn:Hn; [|done].
  intros [= _ <-]. by apply scan_number_length in Hn.
Qed.

Lemma more_length p o ps r :
  more p o = Some (ps, r) → ∃ ps', o = Some (ps', r).
Proof. destruct o as [[ps' t]|]; simpl; [|done]. intros [= _ <-]. eauto. Qed.

Lemma scan_string_length s ps r :
  scan_string s = Some (ps, r) → (length r < length s)%nat.
Proof.
  remember (length s) as n eqn:Hn. revert s ps r Hn.
  induction (lt_wf n) as [n _ IH]. intros s ps r ->.
  destruct s as [|c rest]; simpl; [done|].
  destruct (is_byte x22 c); [intros [= _ <-]; lia|].
  destruct (is_byte x5c c).
  - destruct rest as [|e rest']; [done|].
    destruct (simple_escape e) as [b|].
    + intros [ps' H]%more_length.
      eapply (IH (length rest')) in H; [|simpl; lia|done]. simpl. lia.
    + destruct (is_byte x75 e); [|done].
      destruct rest' as [|h1 [|h2 [|h3 [|h4 rest'']]]]; try done.
      destruct (hex_value h1), (hex_value h2), (hex_value h3), (hex_value h4);
        try done.
      intros [ps' H]%more_length.
      eapply (IH (length rest'')) in H; [|simpl; lia|done]. simpl. lia.
  - destruct (Byte.to_N c <? 32)%N; [done|].
    intros [ps' H]%more_length.
    eapply (IH (length rest)) in H; [|simpl; lia|done]. lia.
Qed.

(** What a recursive scan may come back with, for a given bound: a proper
    suffix of the text, a syntax error, or [Starved] only when the bound is
    small against the text. *)
Definition fed {A : Type} (slack fuel : nat) (s : list byte) (r : scan A) : Prop :=
  match r with
  | Scanned _ rest => (length rest < length s)%nat
  | Invalid => True
  | Starved => (fuel ≤ 2 * length s + slack)%nat
  end.

Lemma parse_fed (fuel : nat) :
  (∀ depth s, fed 0 fuel s (parse_value fuel depth s)) ∧
  (∀ depth s, fed 1 fuel s (parse_elements fuel depth s)) ∧
  (∀ depth s, fed 1 fuel s (parse_members fuel depth s)).
Proof.
  induction fuel as [|fuel (IHv & IHe & IHm)].
  { repeat split; intros; simpl; lia. }
  repeat split; intros depth s.
  - (* a value *)
    cbn [parse_value]. destruct s as [|c s']; [done|].
    destruct (is_byte x7b c).
    { destruct (maxNestingDepth <=? depth)%N; [done|].
      pose proof (skip_space_length s') as Hs.
      destruct (skip_space s') as [|c' r]; [done|].
      destruct (is_byte x7d c'); [simpl in *; lia|].
      pose proof (IHm (depth + 1)%N (c' :: r)) as H.
      destruct (parse_members fuel (depth + 1) (c' :: r)); simpl in *; lia. }
    destruct (is_byte x5b c).
    { destruct (maxNestingDepth <=? depth)%N; [done|].
      pose proof (skip_space_length s') as Hs.
      destruct (skip_space s') as [|c' r]; [done|].
      destruct (is_byte x5d c'); [simpl in *; lia|].
      pose proof (IHe (depth + 1)%N (c' :: r)) as H.
      destruct (parse_elements fuel (depth + 1) (c' :: r)); simpl in *; lia. }
    destruct (is_byte x22 c).
    { destruct (scan_string s') as [[ps r]|] eqn:Hq; [|done].
      apply scan_string_length in Hq. simpl. lia. }
    destruct (scan_literal (c :: s')) as [[v r]|] eqn:Hl; [|done].
    by apply scan_literal_length in Hl.
  - (* the elements of an array *)
    cbn [parse_elements]. pose proof (IHv depth s) as Hv.
    destruct (parse_value fuel depth s) as [v r| |]; simpl in *; [|done|lia].
    pose proof (skip_space_length r) as Hr.
    destruct (skip_space r) as [|c r']; [done|].
    destruct (is_byte x5d c); [simpl in *; lia|].
    destruct (is_byte x2c c); [|done].
    pose proof (skip_space_length r') as Hr'.
    pose proof (IHe depth (skip_space r')) as He.
    destruct (parse_elements fuel depth (skip_space r')); simpl in *; lia.
  - (* the members of an object *)
    cbn [parse_members]. destruct s as [|q s']; [done|].
    destruct (is_byte x22 q); [|done].
    destruct (scan_string s') as [[ps r]|] eqn:Hq; [|done].
    apply scan_string_length in Hq.
    pose proof (skip_space_length r) as Hr.
    destruct (skip_space r) as [|c r']; [done|].
    destruct (is_byte x3a c); [|done].
    pose proof (skip_space_length r') as Hr'.
    pose proof (IHv depth (skip_space r')) as Hv.
    destruct (parse_value fuel depth (skip_space r')) as [v r''| |];
      simpl in *; [|done|lia].
    pose proof (skip_space_length r'') as Hr''.
    destruct (skip_space r'') as [|c' t]; [done|].
    destruct (is_byte x7d c'); [simpl in *; lia|].
    destruct (is_byte x2c c'); [|done].
    pose proof (skip_space_length t) as Ht.
    pose proof (IHm depth (skip_space t)) as Hm.
    destruct (parse_members fuel depth (skip_space t)); simpl in *; lia.
Qed.

(** The bound [parse] starts with is never hit: a text it refuses is
    refused for its syntax. *)
Lemma parse_value_fed (depth : N) (s : list byte) :
  parse_value (2 * length s + 2) depth s ≠ Starved.
Proof.
  intros H. pose proof (proj1 (parse_fed (2 * length s + 2)) depth s) as Hf.
  rewrite H in Hf. simpl in Hf. lia.
Qed.

End JSONProps.

Lemma bytes_eqb_eq (a b : list byte) : bytes_eqb a b = true ↔ a = b.
Proof.
  revert b. induction a as [|x a IH]; intros [|y b]; simpl; try done.
  rewrite andb_true_iff, IH. split.
  - intros [Hxy ->]. by rewrite (Byte.byte_dec_bl _ _ Hxy).
  - intros [= -> ->]. split; [by apply Byte.byte_dec_lb|done].
Qed.





Section MessageProps.
Context {V MErr : Type} (json_Marshal : V → MErr + list byte).
Context `{!MarshalsJSON json_Marshal}.


End MessageProps.



(** A plain text can also decode to another value than its own: here to
    [null], the content of its [data] member. *)
Example plain_json_decodes_to_inner_data :
  UnmarshalJSON (json_text "{'type':'json','data':'bnVsbA=='}") = inr (bytes "null").
Proof. vm_compute. reflexivity. Qed.

(** An object that names [Type] as ["json"] but does not decode into the
    struct, its [Data] being a number, is read as a plain text and kept. *)
Example undecodable_envelope_is_plain :
  UnmarshalJSON (json_text "{'Type':'json','Data':5}")
  = inr (json_text "{'Type':'json','Data':5}").
Proof. vm_compute. reflexivity. Qed.

(** A legacy envelope and a plain text that decode as the specification
    says. *)
Example legacy_envelope_decodes :
  UnmarshalJSON (json_text "{'Data':'eyJmb28iOiAiYmFyIn0=','Type':'json'}")
  = inr (json_text "{'foo': 'bar'}").
Proof. vm_compute. reflexivity. Qed.

Example plain_json_decodes :
  UnmarshalJSON (json_text " {'worker': 'sendmail', 'ids': [1, 2]} ")
  = inr (json_text "{'worker': 'sendmail', 'ids': [1, 2]}").
Proof. vm_compute. reflexivity. Qed.


(** * The theorems at concrete inputs *)

Lemma NewJob_queued_witness :
  (∀ n m : nat, (n ≤ m)%nat → tick_clock n ≤ tick_clock m) ∧
  let tenant := sample_job "" "" "" 0 in
  let j := (NewJob tick_clock tenant sample_request (mkWorld () [] 1)).1 in
  JState j = Queued ∧ 0 ≤ QueuedAt j ≤ 2000 ∧
  Message j = Some (bytes "{}") ∧ Domain j = "cozy.example.net".
Proof.
  assert (Hmono : ∀ n m : nat, (n ≤ m)%nat → tick_clock n ≤ tick_clock m)
    by (unfold tick_clock; lia).
  split; [exact Hmono|].
  pose proof (NewJob_queued tick_clock (sample_job "" "" "" 0) sample_request
                (mkWorld () [] 0) Hmono) as H.
  cbn in H. cbn. intuition.
Defined.

Lemma GetLastsJobs_groups_witness :
  SortSlice insertion_sort ∧
  lj_result (GetLastsJobs insertion_sort sample_jobs "konnector") =
  [sample_job "f" "konnector" Queued 0; sample_job "c" "konnector" Queued 5;
   sample_job "d" "konnector" Done 2; sample_job "a" "konnector" Done 3;
   sample_job "e" "konnector" Errored 4].
Proof.
  split; [exact insertion_sort_SortSlice|].
  destruct (GetLastsJobs_groups insertion_sort sample_jobs "konnector")
    as (_ & _ & _ & Hres & _).
  rewrite Hres. vm_compute. reflexivity.
Defined.

Lemma sample_jobs_unsorted : ¬ StronglySorted QueuedAt_le sample_jobs.
Proof.
  intros [H _]%StronglySorted_cons. apply Forall_cons in H as [H _].
  unfold QueuedAt_le in H. simpl in H. lia.
Qed.

Lemma GetLastsJobs_reorders_input_witness :
  SortSlice insertion_sort ∧ ¬ StronglySorted QueuedAt_le sample_jobs ∧
  lj_jobs (GetLastsJobs insertion_sort sample_jobs "konnector") ≠ sample_jobs.
Proof.
  split; [exact insertion_sort_SortSlice|]. split; [exact sample_jobs_unsorted|].
  exact (proj2 (proj2 (GetLastsJobs_reorders_input insertion_sort sample_jobs
                         "konnector" sample_jobs_unsorted))).
Defined.

Lemma sample_docs_ordered : identity_ordered sample_docs.
Proof. repeat constructor. Qed.

Lemma GetAllJobs_complete_witness :
  identity_ordered sample_docs ∧ (length sample_docs < 4)%nat ∧
  GetAllJobs (GetAllDocs_paged (Err:=unit)) 4 sample_docs
  = Some (inr sample_docs).
Proof.
  split; [exact sample_docs_ordered|]. split; [simpl; lia|].
  exact (proj1 (GetAllJobs_complete sample_docs 4 sample_docs_ordered
                  ltac:(simpl; lia))).
Defined.

(** One document less than a page, exactly a page, one document more: two
    laps, two laps, three laps. *)
Example GetAllJobs_below_page_size :
  let docs := numbered_docs (Z.to_nat 10000) in
  returns_ids (GetAllJobs GetAllDocs_paged 2 docs) docs = true ∧
  GetAllJobs (GetAllDocs_paged (Err:=unit)) 1 docs = None.
Proof. vm_compute. by split. Qed.

Example GetAllJobs_at_page_size :
  let docs := numbered_docs (Z.to_nat 10001) in
  returns_ids (GetAllJobs GetAllDocs_paged 2 docs) docs = true ∧
  GetAllJobs (GetAllDocs_paged (Err:=unit)) 1 docs = None.
Proof. vm_compute. by split. Qed.

Example GetAllJobs_above_page_size :
  let docs := numbered_docs (Z.to_nat 10002) in
  returns_ids (GetAllJobs GetAllDocs_paged 3 docs) docs = true ∧
  GetAllJobs (GetAllDocs_paged (Err:=unit)) 2 docs = None.
Proof. vm_compute. by split. Qed.

Example GetAllJobs_empty :
  GetAllJobs (GetAllDocs_paged (Err:=unit)) 1 [] = Some (inr []).
Proof. reflexivity. Qed.

Module HeapExamples.
Import Heap.

Lemma sample_valid : valid_job sample_mem sample_jobH.
Proof.
  repeat split; simpl; try (eexists; split; [reflexivity|simpl; lia]).
  by eexists.
Qed.

Lemma Clone_deep_copy_witness :
  valid_job sample_mem sample_jobH ∧
  let '(cloned, j', m') := Clone sample_jobH sample_mem in
  view m' cloned = view sample_mem sample_jobH ∧
  view m' j' = view sample_mem sample_jobH ∧
  no_shared_storage cloned j' ∧
  extends sample_mem m' ∧
  valid_job m' cloned ∧ valid_job m' j'.
Proof.
  split; [exact sample_valid|].
  exact (HeapProps.Clone_deep_copy sample_jobH sample_mem sample_valid).
Defined.

(** Where the receiver and the clone point after the call: the clone keeps
    arrays 0 and 1, the receiver has moved to the new arrays 2 and 3. *)
Example Clone_pointers :
  let '(cloned, j', m') := Clone sample_jobH sample_mem in
  Message cloned = Some (mkSlice 0 0 2) ∧ Payload cloned = Some (mkSlice 1 2 5) ∧
  Message j' = Some (mkSlice 2 0 2) ∧ Payload j' = Some (mkSlice 3 0 5) ∧
  Options cloned = Some 1%nat ∧ Options j' = Some 0%nat ∧
  arrays m' = [bytes "{}"; bytes "--[1,2]--"; bytes "{}"; bytes "[1,2]"].
Proof. vm_compute. repeat split. Qed.

End HeapExamples.

(** The wait on three channels: a [Done] event after five minutes, an
    [Errored] event after five minutes, and an [Errored] event that comes a
    minute after the timer has fired. *)
Example WaitUntilDone_runs :
  let at_state (t : Time) (s : State) :=
    (t, mkRTEvent (CouchJSONDoc {[ "state" := AnyString s ]})) in
  WaitUntilDone (Err:=unit) None 0
    [at_state Minute Running; at_state (5 * Minute) Done] = None ∧
  WaitUntilDone (Err:=unit) None 0
    [at_state Minute Running; at_state (5 * Minute) Errored]
  = Some (NewError "The konnector failed on account deletion") ∧
  WaitUntilDone (Err:=unit) None 0
    [at_state Minute Running; at_state (11 * Minute) Errored] = None.
Proof. vm_compute. by repeat split. Qed.

(** Three waits decided by what the documents hold: a JSON document of
    package [realtime] in state ["errored"] after one in state ["running"]; a
    job in state [Done] ahead of an errored document; and an errored document
    that becomes receivable at the very instant the timer fires. *)
Lemma WaitUntilDone_outcome_witness :
  let running := mkRTEvent (CouchJSONDoc {[ "state" := AnyString "running" ]}) in
  let errored := mkRTEvent (RealtimeJSONDoc {[ "state" := AnyString "errored" ]}) in
  let finished := mkRTEvent (JobDoc (sample_job "0a1" "konnector" Done 0)) in
  WaitUntilDone (Err:=unit) None 0
    [(Minute, running); (5 * Minute, errored); (6 * Minute, finished)]
  = Some (NewError "The konnector failed on account deletion") ∧
  WaitUntilDone (Err:=unit) None 0
    [(Minute, running); (5 * Minute, finished); (6 * Minute, errored)] = None ∧
  WaitUntilDone (Err:=unit) None 0
    [(Minute, running); (10 * Minute, errored)] = None.
Proof.
  intros running errored finished.
  assert (Hpre : Forall (λ p : Time * RTEvent,
                   p.1 < 0 + 10 * Minute ∧
                   ¬ match Doc p.2 with
                     | CouchJSONDoc m | RealtimeJSONDoc m =>
                         m !! "state" = Some (AnyString "done")
                     | JobDoc j => JState j = "done"
                     | OtherDoc => False
                     end ∧
                   ¬ match Doc p.2 with
                     | CouchJSONDoc m | RealtimeJSONDoc m =>
                         m !! "state" = Some (AnyString "errored")
                     | JobDoc j => JState j = "errored"
                     | OtherDoc => False
                     end) [(Minute, running)]).
  { constructor; [|constructor]. split; [unfold Minute; simpl; lia|].
    split; intros H; vm_compute in H; discriminate. }
  split; [|split].
  - pose proof (WaitUntilDone_outcome (Err:=unit) 0
                  [(Minute, running); (5 * Minute, errored); (6 * Minute, finished)])
      as H.
    cbv zeta in H. destruct H as (_ & H & _).
    apply (H [(Minute, running)] (5 * Minute) errored [(6 * Minute, finished)]);
      [reflexivity|exact Hpre|unfold Minute; lia|reflexivity].
  - pose proof (WaitUntilDone_outcome (Err:=unit) 0
                  [(Minute, running); (5 * Minute, finished); (6 * Minute, errored)])
      as H.
    cbv zeta in H. destruct H as (_ & H & _).
    apply (H [(Minute, running)] (5 * Minute) finished [(6 * Minute, errored)]);
      [reflexivity|exact Hpre|unfold Minute; lia|reflexivity].
  - pose proof (WaitUntilDone_outcome (Err:=unit) 0
                  [(Minute, running); (10 * Minute, errored)]) as H.
    cbv zeta in H. destruct H as (_ & _ & H & _).
    apply (H [(Minute, running)] [(10 * Minute, errored)]);
      [reflexivity|exact Hpre|unfold Minute; simpl; lia].
Defined.

(** Texts the scanner accepts and texts it refuses. *)
Example parse_accepts :
  Forall (λ s, is_Some (JSON.parse (json_text s)))
    ["{}"; " [ ] "; "-0.5e-1"; "'a\u00e9\n'"; "null";
     "{'worker': 'sendmail', 'ids': [1, {'ok': true}]}"].
Proof. repeat constructor; vm_compute; eauto. Qed.

Example parse_refuses :
  Forall (λ s, JSON.parse (json_text s) = None)
    [""; "[1,]"; "{'a':1,}"; "tru"; "01"; "1."; "'open"; "{a:1}"; "[1] 2"].
Proof. repeat constructor. Qed.

(** Three hundred nested arrays, within the recursion bound. *)
Example parse_nested :
  is_Some (JSON.parse (replicate 300 x5b ++ replicate 300 x5d)).
Proof. vm_compute. eauto. Qed.

(** * Further properties of [broker.go] *)

(** ** Persistence and life cycle *)

Section LifeCycle.
Context {Err Store : Type}.
Variable wall : nat → Time.
Variable IsNotFoundError : Err → bool.
Variable UpdateDoc : Job → Store → (Err + string) * Store.
Variable CreateDoc : Job → Store → (Err + string * string) * Store.

#[local] Abbreviation Update_ := (Update IsNotFoundError UpdateDoc CreateDoc).
#[local] Abbreviation AckConsumed_ :=
  (AckConsumed wall IsNotFoundError UpdateDoc CreateDoc).
#[local] Abbreviation Ack_ := (Ack wall IsNotFoundError UpdateDoc CreateDoc).
#[local] Abbreviation Nack_ := (Nack wall IsNotFoundError UpdateDoc CreateDoc).

Lemma same_body_all_fields (a b : Job) :
  same_body a b →
  Domain a = Domain b ∧ Prefix a = Prefix b ∧ WorkerType a = WorkerType b ∧
  TriggerID a = TriggerID b ∧ Message a = Message b ∧ Event a = Event b ∧
  Payload a = Payload b ∧ Manual a = Manual b ∧ Debounced a = Debounced b ∧
  Options a = Options b ∧ JState a = JState b ∧ QueuedAt a = QueuedAt b ∧
  StartedAt a = StartedAt b ∧ FinishedAt a = FinishedAt b ∧
  Error a = Error b ∧ ForwardLogs a = ForwardLogs b.
Proof. unfold same_body. destruct a, b; setters. intros [=]. by subst. Qed.

(** X1. [Update] writes nothing into the job but identity and revision:
    every other field comes back as it went in, whatever the store answers.
    The identity itself changes only when the store answered the update with
    a not-found error; the clock is not read; the store is called once, or
    twice on the re-creation path. *)
Theorem Update_touches_identity_only (j : Job) (w : World Store) :
  let '((err, j'), w') := Update_ j w in
  same_body j' j ∧
  tick w' = tick w ∧
  (JobID j' ≠ JobID j →
   ∃ e s, UpdateDoc j (store w) = (inl e, s) ∧ IsNotFoundError e = true) ∧
  ∃ new, calls w' = calls w ++ new ∧ (length new = 1 ∨ length new = 2)%nat.
Proof.
  pose proof (Update_same_body IsNotFoundError UpdateDoc CreateDoc j w)
    as (Hb & Ht & _).
  revert Hb Ht.
  unfold Update, Create, bind, ret, couchdb_UpdateDoc, couchdb_CreateDoc.
  destruct (UpdateDoc j (store w)) as [[e|rev] s]; simpl.
  - destruct (IsNotFoundError e) eqn:Hnf; simpl.
    + destruct (CreateDoc _ s) as [[e'|[id rev]] s']; simpl; intros Hb Ht;
        (split; [done|]); (split; [done|]); (split; [by eauto|]);
        exists [CallUpdateDoc j; CallCreateDoc (SetRev "" (SetID "" j))];
        rewrite <- app_assoc; split; auto.
    + intros Hb Ht. split; [done|]. split; [done|]. split; [by intros []|].
      exists [CallUpdateDoc j]. split; auto.
  - intros Hb Ht. split; [done|]. split; [done|]. split; [by intros []|].
    exists [CallUpdateDoc j]. split; auto.
Qed.

(** X2. [AckConsumed] puts the job in state [Running] with [StartedAt] set to
    the clock reading of the call, and leaves [Message], [Event], [Payload],
    [QueuedAt], [FinishedAt], [Error] and the dispatch fields as they were:
    unlike [Ack] and [Nack] it does not clear the transient inputs.  The
    document it submits already carries the new state. *)
Theorem AckConsumed_starts (j : Job) (w : World Store) :
  let now := wall (tick w) in
  let '((err, j'), w') := AckConsumed_ j w in
  JState j' = Running ∧ StartedAt j' = now ∧
  Message j' = Message j ∧ Event j' = Event j ∧ Payload j' = Payload j ∧
  QueuedAt j' = QueuedAt j ∧ FinishedAt j' = FinishedAt j ∧
  Error j' = Error j ∧ WorkerType j' = WorkerType j ∧
  Options j' = Options j ∧ Domain j' = Domain j ∧ Prefix j' = Prefix j ∧
  tick w' = S (tick w) ∧
  ∃ new, calls w' = calls w ++ new ∧ new ≠ [] ∧
         Forall (λ c, JState (call_doc c) = Running ∧
                      StartedAt (call_doc c) = now ∧
                      Event (call_doc c) = Event j ∧
                      Payload (call_doc c) = Payload j) new.
Proof.
  intros now. unfold AckConsumed, bind, time_Now.
  set (j1 := set_State _ _). set (w1 := mkWorld _ _ _).
  destruct (Update_same_body IsNotFoundError UpdateDoc CreateDoc j1 w1)
    as (Hb & Ht & new & Hc & Hne & Hall).
  destruct (Update_ j1 w1) as [[err j'] w']; simpl in *.
  apply same_body_all_fields in Hb.
  destruct Hb as (? & ? & ? & ? & ? & ? & ? & ? & ? & ? & ? & ? & ? & ? & ? & ?).
  repeat split; try (etrans; [eassumption|reflexivity]).
  exists new. split; [done|]. split; [done|].
  eapply Forall_impl; [exact Hall|]. intros c Hc'.
  apply same_body_all_fields in Hc'.
  destruct Hc' as (? & ? & ? & ? & ? & ? & ? & ? & ? & ? & ? & ? & ? & ? & ? & ?).
  repeat split; (etrans; [eassumption|reflexivity]).
Qed.

(** X3. A job taken through its life, [NewJob], then [AckConsumed], then
    [Ack] or [Nack], under a clock that never runs backwards: it ends in state
    [Done] (or [Errored] with the given message), its instants are ordered,
    [QueuedAt <= StartedAt <= FinishedAt], its [Event] and [Payload] are nil,
    and its worker type, trigger, message and options are still those of the
    request, whatever the store answered on the way. *)
Theorem life_cycle_ordered {T Trig : Type} `{Prefixer T} (db : T)
    (req : JobRequest Trig) (finish : option string) (w : World Store) :
  (∀ n m : nat, (n ≤ m)%nat → wall n ≤ wall m) →
  let '(j0, w1) := NewJob wall db req w in
  let '((_, j1), w2) := AckConsumed_ j0 w1 in
  let '((_, j2), _) :=
    match finish with
    | None => Ack_ j1 w2
    | Some msg => Nack_ msg j1 w2
    end in
  QueuedAt j2 ≤ StartedAt j2 ≤ FinishedAt j2 ∧
  JState j2 = match finish with None => Done | Some _ => Errored end ∧
  Error j2 = default "" finish ∧
  Event j2 = None ∧ Payload j2 = None ∧
  Message j2 = rMessage req ∧ WorkerType j2 = rWorkerType req ∧
  TriggerID j2 = rTriggerID req ∧ Options j2 = rOptions req.
Proof.
  intros Hmono. unfold NewJob, bind, ret, time_Now; simpl.
  set (j0 := mkJob _ _ _ _ _ _ _ _ _ _ _ _ _ _ _ _ _ _).
  unfold AckConsumed, bind, time_Now; simpl.
  set (j0' := set_State _ _). set (w1' := mkWorld _ _ _).
  destruct (Update_same_body IsNotFoundError UpdateDoc CreateDoc j0' w1')
    as (Hb1 & Ht1 & _).
  destruct (Update_ j0' w1') as [[e1 j1] w2]; simpl in Hb1, Ht1.
  apply same_body_all_fields in Hb1.
  destruct Hb1 as (_ & _ & HW & HT & HM & _ & _ & _ & _ & HO & _ & HQ & HS & _
                   & HEr & _).
  change (Error j0') with EmptyString in HEr.
  change (WorkerType j0') with (rWorkerType req) in HW.
  change (TriggerID j0') with (rTriggerID req) in HT.
  change (Message j0') with (rMessage req) in HM.
  change (Options j0') with (rOptions req) in HO.
  change (QueuedAt j0') with (wall (tick w)) in HQ.
  change (StartedAt j0') with (wall (S (tick w))) in HS.
  assert (Hq : wall (tick w) ≤ wall (S (tick w))) by (apply Hmono; lia).
  assert (Hs : wall (S (tick w)) ≤ wall (tick w2))
    by (apply Hmono; rewrite Ht1; lia).
  destruct finish as [msg|].
  - unfold Nack, bind, time_Now.
    set (jn := set_Payload _ _). set (wn := mkWorld _ _ _).
    destruct (Update_same_body IsNotFoundError UpdateDoc CreateDoc jn wn)
      as (Hb2 & _ & _).
    destruct (Update_ jn wn) as [[e2 j2] w3]; simpl in Hb2.
    apply same_body_all_fields in Hb2.
    destruct Hb2 as (_ & _ & HW2 & HT2 & HM2 & HE2 & HP2 & _ & _ & HO2 & HSt2
                     & HQ2 & HS2 & HF2 & HEr2 & _).
    change (WorkerType jn) with (WorkerType j1) in HW2.
    change (TriggerID jn) with (TriggerID j1) in HT2.
    change (Message jn) with (Message j1) in HM2.
    change (Options jn) with (Options j1) in HO2.
    change (QueuedAt jn) with (QueuedAt j1) in HQ2.
    change (StartedAt jn) with (StartedAt j1) in HS2.
    change (FinishedAt jn) with (wall (tick w2)) in HF2.
    rewrite HQ2, HS2, HF2, HQ, HS.
    repeat split; try done; congruence.
  - unfold Ack, bind, time_Now.
    set (jn := set_Payload _ _). set (wn := mkWorld _ _ _).
    destruct (Update_same_body IsNotFoundError UpdateDoc CreateDoc jn wn)
      as (Hb2 & _ & _).
    destruct (Update_ jn wn) as [[e2 j2] w3]; simpl in Hb2.
    apply same_body_all_fields in Hb2.
    destruct Hb2 as (_ & _ & HW2 & HT2 & HM2 & HE2 & HP2 & _ & _ & HO2 & HSt2
                     & HQ2 & HS2 & HF2 & HEr2 & _).
    change (WorkerType jn) with (WorkerType j1) in HW2.
    change (TriggerID jn) with (TriggerID j1) in HT2.
    change (Message jn) with (Message j1) in HM2.
    change (Options jn) with (Options j1) in HO2.
    change (QueuedAt jn) with (QueuedAt j1) in HQ2.
    change (StartedAt jn) with (StartedAt j1) in HS2.
    change (FinishedAt jn) with (wall (tick w2)) in HF2.
    change (Error jn) with (Error j1) in HEr2.
    rewrite HQ2, HS2, HF2, HQ, HS.
    repeat split; try done; try congruence.
    simpl. etrans; [exact HEr2|exact HEr].
Qed.

(** X4. Once a job is acknowledged, with [Ack] or with [Nack], its [Event]
    and [Payload] can no longer be decoded: [Unmarshal] answers
    [ErrMessageNil] for them, whatever the decoder and whatever they held,
    while [Message] decodes exactly as before the call. *)
Theorem finished_job_inputs_are_nil {V JErr : Type}
    (json_Unmarshal : list byte → JErr + V) (j : Job) (msg : string)
    (w : World Store) :
  let gone (j' : Job) :=
    Unmarshal json_Unmarshal (Event j') = inl ErrMessageNil ∧
    Unmarshal json_Unmarshal (Payload j') = inl ErrMessageNil ∧
    Unmarshal json_Unmarshal (Message j') = Unmarshal json_Unmarshal (Message j) in
  gone (Ack_ j w).1.2 ∧ gone (Nack_ msg j w).1.2.
Proof.
  intros gone. unfold gone, Ack, Nack, bind, time_Now. split.
  - set (jn := set_Payload _ _). set (wn := mkWorld _ _ _).
    destruct (Update_same_body IsNotFoundError UpdateDoc CreateDoc jn wn)
      as (Hb & _).
    apply same_body_all_fields in Hb.
    destruct Hb as (_ & _ & _ & _ & HM & HE & HP & _).
    rewrite HM, HE, HP. done.
  - set (jn := set_Payload _ _). set (wn := mkWorld _ _ _).
    destruct (Update_same_body IsNotFoundError UpdateDoc CreateDoc jn wn)
      as (Hb & _).
    apply same_body_all_fields in Hb.
    destruct Hb as (_ & _ & _ & _ & HM & HE & HP & _).
    rewrite HM, HE, HP. done.
Qed.

(** X5. A job made by [NewJob] names the database of the tenant it was made
    for: its [DomainName] is the tenant's, and its [DBPrefix] is the
    tenant's, or the tenant's domain when the tenant's prefix is empty.  When
    the tenant is itself a job, the new job has the very [DBPrefix] and
    [DomainName] of that job. *)
Theorem NewJob_same_database {T Trig : Type} `{Prefixer T} (db : T) (parent : Job)
    (req : JobRequest Trig) (w : World Store) :
  let j := (NewJob wall db req w).1 in
  let child := (NewJob wall parent req w).1 in
  DomainName j = DomainName db ∧
  DBPrefix j = (if String.eqb (DBPrefix db) "" then DomainName db else DBPrefix db) ∧
  DomainName child = DomainName parent ∧
  DBPrefix child = DBPrefix parent.
Proof.
  unfold NewJob, bind, ret, time_Now; simpl. unfold Job_DBPrefix; simpl.
  split; [done|]. split; [by destruct (String.eqb (DBPrefix db) "")|].
  split; [done|].
  destruct (String.eqb (Prefix parent) "") eqn:HP; simpl.
  - by destruct (String.eqb (Domain parent) "").
  - by rewrite HP.
Qed.

(** X6. Permission fields: what [Fetch] answers on a new job is what it
    answers on the request the job was made from, for every field but
    ["state"], where the job answers the one value ["queued"] and the request
    nothing.  An update of the job in the store changes no answer. *)
Theorem Fetch_of_new_job {T Trig : Type} `{Prefixer T} (db : T)
    (req : JobRequest Trig) (w : World Store) (field : string) :
  let '(j, w1) := NewJob wall db req w in
  Job_Fetch j field =
    (if String.eqb field "state" then Some ["queued"]
     else JobRequest_Fetch req field) ∧
  JobRequest_Fetch req "state" = None ∧
  Job_Fetch (Update_ j w1).1.2 field = Job_Fetch j field.
Proof.
  unfold NewJob, bind, ret, time_Now; simpl.
  set (j := mkJob _ _ _ _ _ _ _ _ _ _ _ _ _ _ _ _ _ _).
  set (w1 := mkWorld _ _ _).
  destruct (Update_same_body IsNotFoundError UpdateDoc CreateDoc j w1) as (Hb & _).
  apply same_body_all_fields in Hb.
  destruct Hb as (_ & _ & HW & _ & _ & _ & _ & _ & _ & _ & HS & _).
  unfold Job_Fetch, JobRequest_Fetch. rewrite HW, HS.
  split; [|done].
  destruct (String.eqb field "worker") eqn:Hw; [|done].
  apply String.eqb_eq in Hw. by subst field.
Qed.

End LifeCycle.

(** ** Listing *)

Lemma FilterJobsBeforeDate_loop_filter (jobs b : list Job) (date : Time) :
  FilterJobsBeforeDate_loop jobs b date
  = b ++ List.filter (λ x, Before (QueuedAt x) date) jobs.
Proof.
  revert b. induction jobs as [|x jobs IH]; intros b; simpl.
  - by rewrite app_nil_r.
  - destruct (Before (QueuedAt x) date); rewrite IH; [|done].
    by rewrite <- app_assoc.
Qed.

Lemma FilterJobsBeforeDate_filter (jobs : list Job) (date : Time) :
  FilterJobsBeforeDate jobs date
  = List.filter (λ x, Before (QueuedAt x) date) jobs.
Proof. unfold FilterJobsBeforeDate. by rewrite FilterJobsBeforeDate_loop_filter. Qed.

(** X7. [FilterJobsBeforeDate] keeps the jobs queued strictly before the
    date, in their order and as often as they occur: a job is returned
    exactly when it is in the input and its [QueuedAt] is earlier than the
    date, so a job queued at the date itself is left out, and the result is a
    subsequence of the input. *)
Theorem FilterJobsBeforeDate_strict (jobs : list Job) (date : Time) :
  sublist (FilterJobsBeforeDate jobs date) jobs ∧
  (∀ x, x ∈ FilterJobsBeforeDate jobs date ↔ x ∈ jobs ∧ QueuedAt x < date) ∧
  (∀ x, QueuedAt x = date → x ∉ FilterJobsBeforeDate jobs date).
Proof.
  rewrite FilterJobsBeforeDate_filter.
  assert (Hin : ∀ x, x ∈ List.filter (λ x, Before (QueuedAt x) date) jobs
                     ↔ x ∈ jobs ∧ QueuedAt x < date).
  { intros x. rewrite !list_elem_of_In, List.filter_In. unfold Before.
    by rewrite Z.ltb_lt. }
  split; [apply filter_sublist|]. split; [exact Hin|].
  intros x Hx [_ Hlt]%Hin. lia.
Qed.

(** X8. Two cuts by date amount to one cut at the earlier date, and an
    earlier date returns a subsequence of what a later date returns. *)
Theorem FilterJobsBeforeDate_twice (jobs : list Job) (d1 d2 : Time) :
  FilterJobsBeforeDate (FilterJobsBeforeDate jobs d2) d1
  = FilterJobsBeforeDate jobs (Z.min d1 d2) ∧
  sublist (FilterJobsBeforeDate jobs (Z.min d1 d2)) (FilterJobsBeforeDate jobs d2).
Proof.
  assert (H : FilterJobsBeforeDate (FilterJobsBeforeDate jobs d2) d1
              = FilterJobsBeforeDate jobs (Z.min d1 d2)).
  { rewrite !FilterJobsBeforeDate_filter. unfold Before.
    induction jobs as [|x jobs IH]; simpl; [done|].
    destruct (Z.ltb_spec (QueuedAt x) d2); simpl;
      destruct (Z.ltb_spec (QueuedAt x) d1);
      destruct (Z.ltb_spec (QueuedAt x) (Z.min d1 d2)); try lia;
      by rewrite IH. }
  split; [exact H|]. rewrite <- H.
  rewrite (FilterJobsBeforeDate_filter (FilterJobsBeforeDate jobs d2)).
  apply filter_sublist.
Qed.

(** X9. On jobs in non-decreasing order of [QueuedAt], which is how
    [GetLastsJobs] leaves the caller's slice, [FilterJobsBeforeDate] returns
    an initial segment of the input, and no job after that segment is queued
    before the date. *)
Theorem FilterJobsBeforeDate_sorted (jobs : list Job) (date : Time) :
  StronglySorted QueuedAt_le jobs →
  let k := length (FilterJobsBeforeDate jobs date) in
  FilterJobsBeforeDate jobs date = take k jobs ∧
  Forall (λ x, date ≤ QueuedAt x) (drop k jobs).
Proof.
  rewrite FilterJobsBeforeDate_filter. unfold Before.
  induction 1 as [|x l Hl IH Hx]; simpl; [done|].
  destruct (Z.ltb_spec (QueuedAt x) date) as [Hlt|Hge]; simpl.
  - destruct IH as [IH1 IH2]. split; [by f_equal|done].
  - assert (Hall : Forall (λ y, date ≤ QueuedAt y) l).
    { eapply Forall_impl; [exact Hx|]. unfold QueuedAt_le. intros y Hy. lia. }
    rewrite filter_none; simpl.
    + split; [done|]. by constructor.
    + eapply Forall_impl; [exact Hall|]. intros y Hy. simpl in *.
      apply Z.ltb_ge. lia.
Qed.

Lemma filter_loop_over_limit (workerType : string) (state : State) (limit : Z)
    (jobs returned : list Job) (n : nat) :
  limit ≤ Z.of_nat (length returned) →
  filter_loop workerType state limit jobs returned n
  = (returned ++ List.filter (matches workerType state) jobs, (n + length jobs)%nat).
Proof.
  revert returned n. induction jobs as [|j jobs IH]; intros returned n Hl; simpl.
  - by rewrite app_nil_r, Nat.add_0_r.
  - destruct (matches workerType state j).
    + rewrite length_app; simpl.
      destruct (Z.eqb_spec (Z.of_nat (length returned + 1)) limit); [lia|].
      rewrite IH by (rewrite length_app; simpl; lia).
      rewrite <- app_assoc. simpl. f_equal. lia.
    + rewrite IH by done. f_equal. lia.
Qed.

(** X10. A limit of zero, or a negative one, is no limit:
    [FilterByWorkerAndState] then reads the whole slice and returns every job
    of the worker type and state, in input order. *)
Theorem FilterByWorkerAndState_no_limit (jobs : list Job) (workerType : string)
    (state : State) (limit : Z) :
  limit ≤ 0 →
  FilterByWorkerAndState jobs workerType state limit
  = List.filter (matches workerType state) jobs ∧
  FilterByWorkerAndState_scanned jobs workerType state limit = length jobs ∧
  (∀ j, j ∈ jobs → WorkerType j = workerType → JState j = state →
        j ∈ FilterByWorkerAndState jobs workerType state limit).
Proof.
  intros Hl. unfold FilterByWorkerAndState, FilterByWorkerAndState_scanned.
  rewrite filter_loop_over_limit by (simpl; lia). simpl.
  split; [done|]. split; [done|].
  intros j Hj HW HS. rewrite list_elem_of_In, List.filter_In.
  split; [by apply list_elem_of_In|].
  unfold matches. rewrite HW, HS, !String.eqb_refl. done.
Qed.

Lemma filter_filter_same (f : Job → bool) (l : list Job) :
  List.filter f (List.filter f l) = List.filter f l.
Proof.
  induction l as [|x l IH]; simpl; [done|].
  destruct (f x) eqn:Hx; simpl; [|done]. by rewrite Hx, IH.
Qed.

Lemma filter_take_filter (f : Job → bool) (n : nat) (l : list Job) :
  List.filter f (take n (List.filter f l)) = take n (List.filter f l).
Proof.
  revert n. induction l as [|x l IH]; intros n; simpl; [by rewrite take_nil|].
  destruct (f x) eqn:Hx; [|done].
  destruct n as [|n]; simpl; [done|]. by rewrite Hx, IH.
Qed.

(** X11. Filtering what [FilterByWorkerAndState] returned, with the same
    worker type, state and limit, returns it unchanged; and under a smaller
    limit (of at least one) the function returns the first jobs of what it
    returns under a larger one. *)
Theorem FilterByWorkerAndState_stable (jobs : list Job) (workerType : string)
    (state : State) (limit limit' : Z) :
  FilterByWorkerAndState (FilterByWorkerAndState jobs workerType state limit)
    workerType state limit
  = FilterByWorkerAndState jobs workerType state limit ∧
  (1 ≤ limit ≤ limit' →
   FilterByWorkerAndState jobs workerType state limit
   = take (Z.to_nat limit) (FilterByWorkerAndState jobs workerType state limit')).
Proof.
  rewrite !FilterByWorkerAndState_cap. unfold cap. split.
  - destruct (Z.leb_spec 1 limit).
    + rewrite filter_take_filter, take_take. f_equal. lia.
    + by rewrite filter_filter_same.
  - intros [H1 H2].
    destruct (Z.leb_spec 1 limit); [|lia].
    destruct (Z.leb_spec 1 limit'); [|lia].
    rewrite take_take. f_equal. lia.
Qed.

Lemma filter_or_perm (f g : Job → bool) (l : list Job) :
  (∀ x, f x = true → g x = true → False) →
  List.filter f l ++ List.filter g l ≡ₚ List.filter (λ x, f x || g x) l.
Proof.
  intros Hfg. induction l as [|x l IH]; simpl; [done|].
  destruct (f x) eqn:Hf, (g x) eqn:Hg; simpl.
  - by destruct (Hfg x).
  - by rewrite IH.
  - by rewrite <- Permutation_middle, IH.
  - done.
Qed.

Lemma filter_StronglySorted (f : Job → bool) (l : list Job) :
  StronglySorted QueuedAt_le l → StronglySorted QueuedAt_le (List.filter f l).
Proof.
  induction 1 as [|x l Hl IH Hx]; simpl; [constructor|].
  destruct (f x); [|done]. constructor; [done|].
  apply Forall_forall. intros y Hy%list_elem_of_In%List.filter_In.
  rewrite Forall_forall in Hx. apply Hx, list_elem_of_In, Hy.
Qed.

(** The jobs [GetLastsJobs] looks at: those of the worker type that are in
    one of the four states. *)
Lemma matches_any_state (workerType : string) (x : Job) :
  matches workerType Queued x || (matches workerType Running x
    || (matches workerType Done x || matches workerType Errored x))
  = String.eqb (WorkerType x) workerType
    && (in_state Queued x || in_state Running x || in_state Done x
        || in_state Errored x).
Proof.
  unfold matches, in_state.
  destruct (String.eqb (WorkerType x) workerType); simpl; [|done].
  by rewrite !orb_assoc.
Qed.

Lemma matches_exclusive (workerType : string) (s s' : State) (x : Job) :
  s ≠ s' → matches workerType s x = true → matches workerType s' x = true → False.
Proof.
  unfold matches. intros Hne [_ H1]%andb_prop [_ H2]%andb_prop.
  apply String.eqb_eq in H1, H2. congruence.
Qed.

Lemma elem_of_take_inv (x : Job) (n : nat) (l : list Job) : x ∈ take n l → x ∈ l.
Proof. intros Hx. rewrite <- (take_drop n l). apply elem_of_app. by left. Qed.

Lemma GetLastsJobs_result (sort_Slice : (Job → Job → bool) → list Job → list Job)
    (jobs : list Job) (workerType : string) :
  let sorted := sort_Slice less_QueuedAt jobs in
  let group (s : State) := take 50 (List.filter (matches workerType s) sorted) in
  lj_result (GetLastsJobs sort_Slice jobs workerType)
  = group Queued ++ group Running ++ group Done ++ group Errored.
Proof.
  intros sorted group. unfold GetLastsJobs; simpl.
  rewrite !FilterByWorkerAndState_cap, <- !app_assoc. reflexivity.
Qed.

Lemma groups_submseteq (workerType : string) (l : list Job) :
  List.filter (matches workerType Queued) l
  ++ List.filter (matches workerType Running) l
  ++ List.filter (matches workerType Done) l
  ++ List.filter (matches workerType Errored) l
  ≡ₚ List.filter (λ x, String.eqb (WorkerType x) workerType
                       && (in_state Queued x || in_state Running x
                           || in_state Done x || in_state Errored x)) l.
Proof.
  rewrite (filter_or_perm (matches workerType Done) (matches workerType Errored))
    by (intros x; by apply matches_exclusive).
  rewrite (filter_or_perm (matches workerType Running)).
  2:{ intros x H1 [H2|H2]%orb_prop;
        by eapply (matches_exclusive workerType Running); [| exact H1 | exact H2]. }
  rewrite (filter_or_perm (matches workerType Queued)).
  2:{ intros x H1 [H2|[H2|H2]%orb_prop]%orb_prop;
        by eapply (matches_exclusive workerType Queued); [| exact H1 | exact H2]. }
  erewrite List.filter_ext; [done|]. intros x. apply matches_any_state.
Qed.

Section MoreLasts.
Context (sort_Slice : (Job → Job → bool) → list Job → list Job).
Context `{!SortSlice sort_Slice}.

(** X12. [GetLastsJobs] returns at most 200 jobs, all of the given worker
    type and each in one of the states [Queued], [Running], [Done], [Errored];
    no job is returned more often than it occurs in the input.  A job of
    another worker type or in another state is never returned. *)
Theorem GetLastsJobs_bounds (jobs : list Job) (workerType : string) :
  let r := GetLastsJobs sort_Slice jobs workerType in
  (length (lj_result r) ≤ 200)%nat ∧
  Forall (λ j, WorkerType j = workerType ∧
               JState j ∈ [Queued; Running; Done; Errored]) (lj_result r) ∧
  lj_result r ⊆+ jobs.
Proof.
  intros r. unfold r. rewrite GetLastsJobs_result.
  set (sorted := sort_Slice less_QueuedAt jobs).
  split; [rewrite !length_app, !length_take; lia|]. split.
  - rewrite !Forall_app.
    repeat split; apply Forall_take;
      (eapply Forall_impl; [apply Forall_filter_matches|]);
      intros j [-> ->]; (split; [done|]); set_solver.
  - etrans; [|apply Permutation_submseteq, (sort_Slice_perm jobs)]. fold sorted.
    pose proof (groups_submseteq workerType sorted) as Hg.
    pose proof (filter_sublist
                  (λ x, String.eqb (WorkerType x) workerType
                        && (in_state Queued x || in_state Running x
                            || in_state Done x || in_state Errored x)) sorted) as Hf.
    apply sublist_submseteq in Hf. apply Permutation_submseteq in Hg.
    etrans; [|exact Hf]. etrans; [|exact Hg].
    repeat apply submseteq_app; apply sublist_submseteq, sublist_take.
Qed.

(** X13. Of the jobs of one worker type and state, [GetLastsJobs] keeps the
    ones queued first: a job of that worker type and state that is in the
    input but not in the result was queued no earlier than every returned job
    of that state.  So when a state holds more than 50 jobs, it is the most
    recently queued ones that are left out. *)
Theorem GetLastsJobs_keeps_earliest (jobs : list Job) (workerType : string)
    (s : State) (x y : Job) :
  let r := GetLastsJobs sort_Slice jobs workerType in
  s ∈ [Queued; Running; Done; Errored] →
  x ∈ lj_result r → JState x = s →
  y ∈ jobs → WorkerType y = workerType → JState y = s →
  y ∉ lj_result r →
  QueuedAt x ≤ QueuedAt y.
Proof.
  intros r Hs Hx HxS Hy HyW HyS Hny. unfold r in *. clear r.
  rewrite GetLastsJobs_result in Hx, Hny.
  set (sorted := sort_Slice less_QueuedAt jobs) in *.
  set (l := List.filter (matches workerType s) sorted).
  assert (Hsorted : StronglySorted QueuedAt_le l).
  { apply filter_StronglySorted, sort_Slice_sorted. }
  assert (Hgroup : ∀ s', x ∈ take 50 (List.filter (matches workerType s') sorted) →
                         x ∈ take 50 l).
  { intros s' Hin. assert (Heq : s' = s).
    { pose proof (Forall_filter_matches workerType s' sorted) as HF.
      rewrite Forall_forall in HF.
      destruct (HF x (elem_of_take_inv _ _ _ Hin)) as [_ HS]. congruence. }
    unfold l. by rewrite <- Heq. }
  assert (Hxl : x ∈ take 50 l).
  { rewrite !elem_of_app in Hx. destruct Hx as [?|[?|[?|?]]]; eauto. }
  assert (Hyl : y ∈ l).
  { unfold l. rewrite list_elem_of_In, List.filter_In. split.
    - apply list_elem_of_In. unfold sorted. by rewrite sort_Slice_perm.
    - unfold matches. by rewrite HyW, HyS, !String.eqb_refl. }
  assert (Hyd : y ∈ drop 50 l).
  { rewrite <- (take_drop 50 l) in Hyl. apply elem_of_app in Hyl as [Hyt|]; [|done].
    exfalso. apply Hny. rewrite !elem_of_app. fold l.
    rewrite !elem_of_cons in Hs.
    destruct Hs as [->|[->|[->|[->|Hs]]]]; eauto. by apply elem_of_nil in Hs. }
  rewrite <- (take_drop 50 l) in Hsorted.
  by apply (StronglySorted_app_1_elem_of QueuedAt_le (take 50 l) (drop 50 l)).
Qed.

(** X14. When no state holds more than 50 jobs of the worker type, nothing
    is left out: [GetLastsJobs] returns, up to order, every job of the input
    that has the worker type and is in one of the four states. *)
Theorem GetLastsJobs_small (jobs : list Job) (workerType : string) :
  (∀ s, (length (List.filter (matches workerType s) jobs) ≤ 50)%nat) →
  lj_result (GetLastsJobs sort_Slice jobs workerType)
  ≡ₚ List.filter (λ x, String.eqb (WorkerType x) workerType
                       && (in_state Queued x || in_state Running x
                           || in_state Done x || in_state Errored x)) jobs.
Proof.
  intros Hsmall. rewrite GetLastsJobs_result.
  set (sorted := sort_Slice less_QueuedAt jobs).
  assert (Hp : sorted ≡ₚ jobs) by apply sort_Slice_perm.
  assert (Hf : ∀ f, List.filter f sorted ≡ₚ List.filter f jobs).
  { intros f. clear Hsmall. revert Hp. generalize sorted. clear.
    intros l Hp. induction Hp as [|x l l' _ IH|x y l|l1 l2 l3 _ IH1 _ IH2]; simpl.
    - done.
    - destruct (f x); by rewrite IH.
    - destruct (f x), (f y); try done. apply perm_swap.
    - by etrans. }
  assert (Ht : ∀ s, take 50 (List.filter (matches workerType s) sorted)
                    = List.filter (matches workerType s) sorted).
  { intros s. apply take_ge. rewrite (Hf _). apply Hsmall. }
  rewrite !Ht, groups_submseteq. apply Hf.
Qed.

End MoreLasts.

(** ** Full traversal *)

Section MoreAllJobs.
Context {Err : Type}.

#[local] Abbreviation paged' := (GetAllDocs_paged (Err:=Err)).

(** The number of laps: with [rest] the documents from the cursor on, the
    loop ends in the lap numbered [(length rest + 19998) / 10000], and not
    before. *)
Lemma GetAllJobs_loop_laps (docs : list Job) :
  identity_ordered docs →
  ∀ (fuel : nat) (finalJobs rest : list Job) (startkey : string),
    docs = finalJobs ++ rest →
    from_key startkey docs = rest →
    GetAllJobs_loop paged' fuel docs startkey finalJobs
    = if Z.of_nat fuel <? (Z.of_nat (length rest) + 19998) / 10000
      then None else Some (inr docs).
Proof.
  intros Hord. induction fuel as [|fuel IH]; intros finalJobs rest startkey Hd Hk.
  { cbn [GetAllJobs_loop].
    destruct (Z.ltb_spec (Z.of_nat 0) ((Z.of_nat (length rest) + 19998) / 10000));
      [done|]. exfalso.
    assert (1 ≤ (Z.of_nat (length rest) + 19998) / 10000)
      by (apply Z.div_le_lower_bound; lia).
    lia. }
  cbn [GetAllJobs_loop]. unfold GetAllDocs_paged at 1. cbn [Limit StartKey].
  unfold Job in *. rewrite Hk. set (n := Z.to_nat 10001).
  assert (Hn : Z.of_nat n = 10001) by (unfold n; lia). clearbody n.
  destruct (last (take n rest)) as [lastJob|] eqn:Hlast.
  - apply last_Some in Hlast as [init Hinit].
    rewrite Hinit, List.removelast_last.
    set (tail := drop n rest).
    assert (Hrest : rest = init ++ lastJob :: tail).
    { rewrite <- (take_drop n rest) at 1. by rewrite Hinit, <- app_assoc. }
    assert (Hlen : length (take n rest) = (length init + 1)%nat).
    { rewrite Hinit, length_app. simpl. lia. }
    assert (Htail : length tail = (length rest - n)%nat)
      by (unfold tail; apply length_drop).
    rewrite length_take in Hlen.
    destruct init as [|j0 init]; cbn [length Nat.eqb].
    + rewrite app_nil_r. simpl in Hlen.
      assert (Hone : length rest = 1%nat) by lia.
      destruct (Z.ltb_spec (Z.of_nat (S fuel))
                  ((Z.of_nat (length rest) + 19998) / 10000)) as [Hlt|_].
      { exfalso. rewrite Hone in Hlt.
        change ((Z.of_nat 1 + 19998) / 10000) with 1 in Hlt. lia. }
      do 2 f_equal. rewrite Hd. f_equal.
      destruct rest as [|r [|r' rest]]; simpl in Hone; [lia| |lia].
      destruct n as [|n]; simpl in Hinit; [lia|]. rewrite take_nil in Hinit.
      by inversion Hinit.
    + clearbody tail. clear Hinit Hk. simpl in Hlen.
      rewrite (IH _ (lastJob :: tail)).
      * assert (Hq : (Z.of_nat (length rest) + 19998) / 10000
                     = 1 + (Z.of_nat (length (lastJob :: tail)) + 19998) / 10000).
        { simpl length. rewrite Htail. 
          destruct (Nat.le_gt_cases (length rest) n) as [Hle|Hgt].
          - replace (length rest - n)%nat with 0%nat by lia.
            assert (2 ≤ Z.of_nat (length rest) ≤ 10001) by lia.
            change (Z.of_nat 1) with 1.
            replace ((1 + 19998) / 10000) with 1 by reflexivity.
            symmetry. apply Z.div_unique with (r := Z.of_nat (length rest) - 2); lia.
          - replace (Z.of_nat (S (length rest - n)))
              with (Z.of_nat (length rest) - 10000) by lia.
            replace (Z.of_nat (length rest) + 19998)
              with ((Z.of_nat (length rest) - 10000 + 19998) + 1 * 10000) by lia.
            rewrite Z.div_add by lia. lia. }
        rewrite Hq.
        destruct (Z.ltb_spec (Z.of_nat (S fuel))
                    (1 + (Z.of_nat (length (lastJob :: tail)) + 19998) / 10000));
          destruct (Z.ltb_spec (Z.of_nat fuel)
                      ((Z.of_nat (length (lastJob :: tail)) + 19998) / 10000));
          try done; lia.
      * subst rest. by rewrite Hd, <- app_assoc.
      * subst rest. pose proof Hord as Hord'. rewrite Hd, app_assoc in Hord'.
        rewrite Hd, app_assoc. exact (from_key_head _ _ _ Hord').
  - apply last_None in Hlast.
    assert (rest = []) as ->.
    { destruct rest; [done|]. destruct n; [lia|]. discriminate. }
    cbn [length].
    replace ((Z.of_nat 0 + 19998) / 10000) with 1 by reflexivity.
    destruct (Z.ltb_spec (Z.of_nat (S fuel)) 1); [lia|].
    by rewrite Hd, app_nil_r.
Qed.

(** X15. Against a store that pages by identity, [GetAllJobs] on a tenant
    of [N] job documents sends exactly [(N + 19998) / 10000] requests: one for
    an empty store, and otherwise one per 10000 documents after the first,
    rounded up, and one more, the final request being answered by the cursor
    document alone.  Cut short of that number of laps the loop has not ended;
    given that many it returns all the documents. *)
Theorem GetAllJobs_requests (docs : list Job) (fuel : nat) :
  identity_ordered docs →
  GetAllJobs paged' fuel docs
  = if Z.of_nat fuel <? (Z.of_nat (length docs) + 19998) / 10000
    then None else Some (inr docs).
Proof.
  intros Hord. unfold GetAllJobs.
  apply (GetAllJobs_loop_laps docs Hord fuel [] docs ""); [done|].
  apply from_key_all, Forall_forall. intros j _. apply leb_empty.
Qed.

End MoreAllJobs.

Section AnyStore.
Context {Err T : Type}.
Variable GetAllDocs : T → AllDocsRequest → Err + list Job.

(** X16. [GetAllJobs] trusts the store with the cursor: the last document
    of a page is held back and expected again at the head of the next page.
    After a first page of two documents or more, a second request that fails
    gives the error and none of the documents; a second page that is empty
    gives the first page without its last document, which is lost; and a
    second page of one document gives the first page with its last document
    replaced by that one, whichever it is. *)
Theorem GetAllJobs_second_page (db : T) (pre : list Job) (c : Job) :
  pre ≠ [] →
  GetAllDocs db (mkAllDocsRequest 10001 "") = inr (pre ++ [c]) →
  match GetAllDocs db (mkAllDocsRequest 10001 (JobID c)) with
  | inl err => GetAllJobs GetAllDocs 2 db = Some (inl err)
  | inr [] => GetAllJobs GetAllDocs 2 db = Some (inr pre)
  | inr [d] => GetAllJobs GetAllDocs 2 db = Some (inr (pre ++ [d]))
  | inr _ => True
  end.
Proof.
  intros Hpre H1. unfold GetAllJobs; cbn [GetAllJobs_loop]. rewrite H1.
  rewrite last_snoc, List.removelast_last.
  destruct pre as [|p pre]; [done|]. cbn [length Nat.eqb app].
  destruct (GetAllDocs db (mkAllDocsRequest 10001 (JobID c)))
    as [err|[|d [|d' page]]]; simpl; try done.
  by rewrite app_nil_r.
Qed.

End AnyStore.

(** ** Blocking wait *)

(** X17. Events that do not report a final state are passed over: an event
    whose document is of an unknown type, a JSON document with no ["state"]
    entry or with one that is not a string, or any document in a state other
    than [Done] and [Errored].  Received within the ten minutes, such events
    leave the result of [WaitUntilDone] what it is without them. *)
Theorem WaitUntilDone_passes_over {Err : Type} (now : Time)
    (pre rest : list (Time * RTEvent)) :
  let silent (e : RTEvent) :=
    match Doc e with
    | CouchJSONDoc m | RealtimeJSONDoc m =>
        match m !! "state" with
        | Some (AnyString s) => s ≠ Done ∧ s ≠ Errored
        | _ => True
        end
    | JobDoc j => JState j ≠ Done ∧ JState j ≠ Errored
    | OtherDoc => True
    end in
  Forall (λ p, p.1 < now + 10 * Minute ∧ silent p.2) pre →
  WaitUntilDone (Err:=Err) None now (pre ++ rest) = WaitUntilDone None now rest.
Proof.
  intros silent Hpre. unfold WaitUntilDone. apply WaitUntilDone_loop_skip.
  eapply Forall_impl; [exact Hpre|]. intros [t e] [Ht He]. split; [exact Ht|].
  simpl in *. unfold terminal, event_state, state_field.
  unfold silent in He. destruct e as [[m|m|j|]]; simpl in *.
  - destruct (m !! "state") as [[s|]|]; try done.
    destruct He as [H1 H2]. apply String.eqb_neq in H1, H2. by rewrite H1, H2.
  - destruct (m !! "state") as [[s|]|]; try done.
    destruct He as [H1 H2]. apply String.eqb_neq in H1, H2. by rewrite H1, H2.
  - destruct He as [H1 H2]. apply String.eqb_neq in H1, H2. by rewrite H1, H2.
  - done.
Qed.

Section WaitAfter.
Context {Err Store : Type}.
Variable wall : nat → Time.
Variable IsNotFoundError : Err → bool.
Variable UpdateDoc : Job → Store → (Err + string) * Store.
Variable CreateDoc : Job → Store → (Err + string * string) * Store.

(** X18. A waiter that receives, within the ten minutes, the job as [Ack]
    left it returns nil, and one that receives the job as [Nack] left it
    returns the error with the fixed text: the message given to [Nack] is not
    passed on.  Events of a job as [AckConsumed] left it do not end the
    wait. *)
Theorem WaitUntilDone_after_acknowledgement {WErr : Type} (j : Job)
    (msg : string) (w : World Store) (now t : Time)
    (rest : list (Time * RTEvent)) :
  let started := (AckConsumed wall IsNotFoundError UpdateDoc CreateDoc j w).1.2 in
  let acked := (Ack wall IsNotFoundError UpdateDoc CreateDoc j w).1.2 in
  let nacked := (Nack wall IsNotFoundError UpdateDoc CreateDoc msg j w).1.2 in
  t < now + 10 * Minute →
  WaitUntilDone (Err:=WErr) None now ((t, mkRTEvent (JobDoc acked)) :: rest) = None ∧
  WaitUntilDone (Err:=WErr) None now ((t, mkRTEvent (JobDoc nacked)) :: rest)
  = Some (NewError "The konnector failed on account deletion") ∧
  WaitUntilDone (Err:=WErr) None now ((t, mkRTEvent (JobDoc started)) :: rest)
  = WaitUntilDone None now rest.
Proof.
  intros started acked nacked Ht.
  assert (Hs : JState started = Running).
  { unfold started, AckConsumed, bind, time_Now.
    set (jn := set_State _ _). set (wn := mkWorld _ _ _).
    destruct (Update_same_body IsNotFoundError UpdateDoc CreateDoc jn wn) as (Hb & _).
    apply same_body_fields in Hb as (Hb & _). exact Hb. }
  assert (Ha : JState acked = Done).
  { unfold acked, Ack, bind, time_Now.
    set (jn := set_Payload _ _). set (wn := mkWorld _ _ _).
    destruct (Update_same_body IsNotFoundError UpdateDoc CreateDoc jn wn) as (Hb & _).
    apply same_body_fields in Hb as (Hb & _). exact Hb. }
  assert (Hn : JState nacked = Errored).
  { unfold nacked, Nack, bind, time_Now.
    set (jn := set_Payload _ _). set (wn := mkWorld _ _ _).
    destruct (Update_same_body IsNotFoundError UpdateDoc CreateDoc jn wn) as (Hb & _).
    apply same_body_fields in Hb as (Hb & _). exact Hb. }
  unfold WaitUntilDone, waitTimeout; cbn [WaitUntilDone_loop].
  destruct (Z.ltb_spec t (now + 10 * Minute)); [|lia].
  unfold event_state; cbn [Doc]. rewrite Hs, Ha, Hn. done.
Qed.

End WaitAfter.

(** ** Cloning *)

Module MoreHeapProps.
Import Heap HeapProps.

(** One re-allocation, spelled out: a nil slice costs nothing; a non-nil one
    gets a new array, appended to the memory, that holds its bytes, and the
    new slice is the whole of that array. *)
Lemma reallocate_layout (f : option Slice) (m : Mem) :
  valid_slice m f →
  arrays (reallocate f m).2 = arrays m ++ omap (fmap (bytes_of m)) [f] ∧
  options (reallocate f m).2 = options m ∧
  (reallocate f m).1 = (λ s, mkSlice (length (arrays m)) 0 (len s)) <$> f.
Proof.
  intros Hv. destruct f as [tmp|]; simpl; [|by rewrite app_nil_r].
  set (m1 := mkMem (arrays m ++ [replicate (len tmp) Byte.x00]) (options m)).
  assert (Hext : extends m m1) by (split; [by apply prefix_app_r|done]).
  assert (Hb : bytes_of m1 tmp = bytes_of m tmp).
  { by injection (extends_bytes_of m m1 (Some tmp) Hext Hv). }
  unfold copy; cbn [len arr off]. rewrite Nat.min_id, Hb.
  replace (arrays m1 !! length (arrays m))
    with (Some (replicate (len tmp) Byte.x00))
    by (symmetry; apply list_lookup_middle; done).
  cbn [arrays options m1 fst snd].
  rewrite (take_ge (bytes_of m tmp)) by (rewrite length_bytes_of; [lia|done]).
  rewrite drop_replicate, Nat.add_0_l, Nat.sub_diag, app_nil_r; simpl.
  rewrite insert_app_r_alt, Nat.sub_diag by done. done.
Qed.

(** What a call of [Clone] does to the memory and to the two jobs. *)
Lemma Clone_layout (j : JobH) (m : Mem) :
  valid_job m j →
  let '(cloned, j', m') := Clone j m in
  let blobs := [Message j; Event j; Payload j] in
  cloned = set_Options ((λ _, length (options m)) <$> Options j) j ∧
  arrays m' = arrays m ++ omap (fmap (bytes_of m)) blobs ∧
  options m' = options m ++ omap (λ q, q ≫= λ p, options m !! p) [Options j] ∧
  Options j' = Options j ∧
  ∃ a1 a2 a3,
    Message j' = (λ s, mkSlice a1 0 (len s)) <$> Message j ∧
    Event j' = (λ s, mkSlice a2 0 (len s)) <$> Event j ∧
    Payload j' = (λ s, mkSlice a3 0 (len s)) <$> Payload j ∧
    (length (arrays m) ≤ a1)%nat ∧ (length (arrays m) ≤ a2)%nat ∧
    (length (arrays m) ≤ a3)%nat ∧
    (is_Some (Message j) → arrays m' !! a1 = bytes_of m <$> Message j) ∧
    (is_Some (Event j) → arrays m' !! a2 = bytes_of m <$> Event j) ∧
    (is_Some (Payload j) → arrays m' !! a3 = bytes_of m <$> Payload j) ∧
    (is_Some (Message j) → is_Some (Event j) → a1 ≠ a2) ∧
    (is_Some (Message j) → is_Some (Payload j) → a1 ≠ a3) ∧
    (is_Some (Event j) → is_Some (Payload j) → a2 ≠ a3).
Proof.
  intros (HvM & HvE & HvP & HvO). unfold Clone.
  set (r0 := match Options j with
             | Some p => let '(q, m0) := new_options p m in
                         (set_Options (Some q) j, m0)
             | None => (j, m)
             end).
  assert (H0 : r0.1 = set_Options ((λ _, length (options m)) <$> Options j) j ∧
               arrays r0.2 = arrays m ∧
               options r0.2
               = options m ++ omap (λ q, q ≫= λ p, options m !! p) [Options j]).
  { unfold r0. destruct (Options j) as [p|] eqn:HO; simpl.
    - destruct HvO as [o Ho]. rewrite Ho. simpl. done.
    - rewrite app_nil_r. split; [|done].
      destruct j; unfold set_Options; simpl in *. by subst. }
  destruct r0 as [cloned m0]; simpl in H0. destruct H0 as (Hc & A0 & O0).
  assert (E0 : extends m m0).
  { split; [by rewrite A0|]. rewrite O0. by apply prefix_app_r. }
  pose proof (extends_valid_slice _ _ _ E0 HvM) as HvM0.
  pose proof (reallocate_layout (Message j) m0 HvM0) as (A1 & O1 & S1).
  pose proof (reallocate_fresh (Message j) m0 HvM0) as (E1 & _).
  destruct (reallocate (Message j) m0) as [f1 m1]; simpl in *.
  assert (E01 : extends m m1) by by etrans.
  pose proof (extends_valid_slice _ _ _ E01 HvE) as HvE1.
  pose proof (reallocate_layout (Event j) m1 HvE1) as (A2 & O2 & S2).
  pose proof (reallocate_fresh (Event j) m1 HvE1) as (E2 & _).
  destruct (reallocate (Event j) m1) as [f2 m2]; simpl in *.
  assert (E02 : extends m m2) by by etrans.
  pose proof (extends_valid_slice _ _ _ E02 HvP) as HvP2.
  pose proof (reallocate_layout (Payload j) m2 HvP2) as (A3 & O3 & S3).
  destruct (reallocate (Payload j) m2) as [f3 m3]; simpl in *.
  pose proof (extends_bytes_of m m0 _ E0 HvM) as B1.
  pose proof (extends_bytes_of m m1 _ E01 HvE) as B2.
  pose proof (extends_bytes_of m m2 _ E02 HvP) as B3.
  assert (Harr : arrays m3 = arrays m ++ omap (fmap (bytes_of m))
                                        [Message j; Event j; Payload j]).
  { rewrite A3, A2, A1, A0, <- !app_assoc. f_equal.
    change [Message j; Event j; Payload j]
      with ([Message j] ++ [Event j] ++ [Payload j]).
    rewrite !omap_app. f_equal; [|f_equal].
    - simpl. rewrite B1. done.
    - simpl. rewrite B2. done.
    - simpl. rewrite B3. done. }
  split; [exact Hc|]. split; [exact Harr|].
  split; [by rewrite O3, O2, O1|]. split; [done|].
  exists (length (arrays m0)), (length (arrays m1)), (length (arrays m2)).
  split; [exact S1|]. split; [exact S2|]. split; [exact S3|].
  assert (L1 : length (arrays m1)
               = (length (arrays m0) + length (omap (fmap (bytes_of m0)) [Message j]))%nat)
    by (by rewrite A1, length_app).
  assert (L2 : length (arrays m2)
               = (length (arrays m1) + length (omap (fmap (bytes_of m1)) [Event j]))%nat)
    by (by rewrite A2, length_app).
  rewrite A0 in L1.
  split; [rewrite A0; lia|]. split; [lia|]. split; [lia|].
  rewrite Harr. clear Harr A3 A2 A1 O1 O2 O3 S1 S2 S3 E1 E2 HvM0 HvE1 HvP2.
  rewrite L2, L1. clear L1 L2.
  assert (Hat : ∀ (l : list (list byte)) k x,
             l !! k = Some x → (arrays m ++ l) !! (length (arrays m) + k)%nat = Some x).
  { intros l k x Hl. rewrite lookup_app_r by lia.
    by replace (length (arrays m) + k - length (arrays m))%nat with k by lia. }
  destruct (Message j) as [s1|], (Event j) as [s2|], (Payload j) as [s3|];
    simpl in *; rewrite ?A0, ?Nat.add_0_r, <- ?Nat.add_assoc;
    repeat split; intros; try lia; try (by destruct H as [? [=]]);
    try (by destruct H0 as [? [=]]);
    try (rewrite <- (Nat.add_0_r (length (arrays m))) at 1; by apply Hat);
    try (by apply Hat).
Qed.

(** X19. The storage [Clone] allocates, and who gets it.  The memory
    grows by one array for each of [Message], [Event] and [Payload] that is
    not nil, holding the bytes of that field, and by one [JobOptions] object
    when [Options] is not nil; nothing is allocated for a nil field.  The
    returned clone keeps the slices the receiver had and points to the new
    [JobOptions] object; the receiver keeps its [JobOptions] object and has
    its non-nil slices moved to the new arrays, each spanning a whole array
    from its first byte, with the length it had. *)
Theorem Clone_allocations (j : JobH) (m : Mem) :
  valid_job m j →
  let '(cloned, j', m') := Clone j m in
  let moved (f f' : option Slice) :=
    match f, f' with
    | Some s, Some s' =>
        off s' = 0%nat ∧ len s' = len s ∧ (length (arrays m) ≤ arr s')%nat ∧
        arrays m' !! arr s' = Some (bytes_of m s)
    | None, None => True
    | _, _ => False
    end in
  Message cloned = Message j ∧ Event cloned = Event j ∧
  Payload cloned = Payload j ∧
  Options j' = Options j ∧
  Options cloned = (λ _, length (options m)) <$> Options j ∧
  arrays m' = arrays m ++ omap (fmap (bytes_of m)) [Message j; Event j; Payload j] ∧
  options m' = options m ++ omap (λ q, q ≫= λ p, options m !! p) [Options j] ∧
  moved (Message j) (Message j') ∧ moved (Event j) (Event j') ∧
  moved (Payload j) (Payload j').
Proof.
  intros Hv. pose proof (Clone_layout j m Hv) as H.
  destruct (Clone j m) as [[cloned j'] m'].
  destruct H as (-> & HA & HO & HO' & a1 & a2 & a3 & HM & HE & HP & L1 & L2 & L3
                 & K1 & K2 & K3 & _).
  simpl. rewrite HM, HE, HP.
  repeat split; try done.
  - destruct (Message j); simpl; [|done]. repeat split; [done|]. by apply K1.
  - destruct (Event j); simpl; [|done]. repeat split; [done|]. by apply K2.
  - destruct (Payload j); simpl; [|done]. repeat split; [done|]. by apply K3.
Qed.

(** A write through one slice is seen only through slices of the same
    array. *)
Lemma poke_elsewhere (s : Slice) (i : nat) (b : byte) (m m'' : Mem) :
  poke s i b m = Some m'' →
  options m'' = options m ∧
  ∀ f, separate_slices (Some s) f → bytes_of m'' <$> f = bytes_of m <$> f.
Proof.
  unfold poke. destruct (i <? len s)%nat; [|done].
  destruct (arrays m !! arr s) as [a|]; [|done].
  intros [= <-]. split; [done|]. intros [t|] Hne; simpl in *; [|done].
  unfold bytes_of; simpl. by rewrite list_lookup_insert_ne.
Qed.

Lemma poke_view (s : Slice) (i : nat) (b : byte) (m m'' : Mem) (x : JobH) :
  poke s i b m = Some m'' →
  Forall (separate_slices (Some s)) [Message x; Event x; Payload x] →
  view m'' x = view m x.
Proof.
  intros Hp Hsep. apply poke_elsewhere in Hp as [HO Hb].
  rewrite !Forall_cons in Hsep. destruct Hsep as (H1 & H2 & H3 & _).
  unfold view. rewrite HO, (Hb _ H1), (Hb _ H2), (Hb _ H3). done.
Qed.

(** X20. After [Clone], the clone and the receiver are isolated from each
    other's writes: storing a byte through [Message], [Event] or [Payload] of
    one of them leaves every field of the other as it reads, and such a store
    at an index within the slice's length is always possible. *)
Theorem Clone_isolates_writes (j : JobH) (m : Mem) :
  valid_job m j →
  let '(cloned, j', m') := Clone j m in
  ∀ (s : Slice) (i : nat) (b : byte),
    (Some s ∈ [Message j'; Event j'; Payload j'] →
     ((i < len s)%nat → is_Some (poke s i b m')) ∧
     ∀ m'', poke s i b m' = Some m'' → view m'' cloned = view m' cloned) ∧
    (Some s ∈ [Message cloned; Event cloned; Payload cloned] →
     ((i < len s)%nat → is_Some (poke s i b m')) ∧
     ∀ m'', poke s i b m' = Some m'' → view m'' j' = view m' j').
Proof.
  intros Hv. pose proof (Clone_layout j m Hv) as H.
  destruct Hv as (HvM & HvE & HvP & _).
  destruct (Clone j m) as [[cloned j'] m'].
  destruct H as (-> & HA & HO & HO' & a1 & a2 & a3 & HM & HE & HP & L1 & L2 & L3
                 & K1 & K2 & K3 & _).
  assert (Hold : ∀ f, valid_slice m f → 
                      match f with
                      | Some t => (arr t < length (arrays m))%nat ∧
                                  is_Some (arrays m' !! arr t)
                      | None => True
                      end).
  { intros [t|] Ht; [|done]. split; [by apply valid_slice_below|].
    destruct Ht as (a & Ha & _). exists a. rewrite HA. by apply lookup_app_l_Some. }
  pose proof (Hold _ HvM) as OM. pose proof (Hold _ HvE) as OE.
  pose proof (Hold _ HvP) as OP. clear Hold.
  intros s i b. unfold poke. simpl. rewrite HM, HE, HP. split; intros Hin.
  - assert (Hs : (length (arrays m) ≤ arr s)%nat ∧ is_Some (arrays m' !! arr s)).
    { rewrite !elem_of_cons in Hin.
      destruct Hin as [Hin|[Hin|[Hin|Hin]]]; [| | |by apply elem_of_nil in Hin].
      - destruct (Message j) as [t|]; [|done]. injection Hin as ->. simpl.
        split; [done|]. rewrite K1; by eauto.
      - destruct (Event j) as [t|]; [|done]. injection Hin as ->. simpl.
        split; [done|]. rewrite K2; by eauto.
      - destruct (Payload j) as [t|]; [|done]. injection Hin as ->. simpl.
        split; [done|]. rewrite K3; by eauto. }
    destruct Hs as [Hfresh [a Ha]]. rewrite Ha. split.
    + intros Hi. apply Nat.ltb_lt in Hi. rewrite Hi. by eauto.
    + intros m'' Hp. apply (poke_view s i b m'); [unfold poke; by rewrite Ha|].
      simpl. rewrite !Forall_cons, Forall_nil.
      destruct (Message j), (Event j), (Payload j); simpl in *; intuition lia.
  - assert (Hs : (arr s < length (arrays m))%nat ∧ is_Some (arrays m' !! arr s)).
    { rewrite !elem_of_cons in Hin.
      destruct Hin as [Hin|[Hin|[Hin|Hin]]]; [| | |by apply elem_of_nil in Hin].
      - by rewrite <- Hin in OM.
      - by rewrite <- Hin in OE.
      - by rewrite <- Hin in OP. }
    destruct Hs as [Hbelow [a Ha]]. rewrite Ha. split.
    + intros Hi. apply Nat.ltb_lt in Hi. rewrite Hi. by eauto.
    + intros m'' Hp. apply (poke_view s i b m'); [unfold poke; by rewrite Ha|].
      simpl. rewrite HM, HE, HP, !Forall_cons, Forall_nil.
      destruct (Message j), (Event j), (Payload j); simpl in *; intuition lia.
Qed.

End MoreHeapProps.

(** ** Message decoding *)

Module MoreJSONProps.
Import JSON JSONProps.

(** Each scanner hands back the end of the text it was given. *)
Lemma skip_space_spaces (s : list byte) :
  ∃ pre, s = pre ++ skip_space s ∧ Forall (λ c, is_space c = true) pre.
Proof.
  induction s as [|c s (pre & Hs & Hpre)]; simpl; [by exists []|].
  destruct (is_space c) eqn:Hc; [|by exists []].
  exists (c :: pre). split; [simpl; by f_equal|by constructor].
Qed.

Lemma skip_space_nil (s : list byte) :
  skip_space s = [] → Forall (λ c, is_space c = true) s.
Proof.
  intros H. destruct (skip_space_spaces s) as (pre & Hs & Hpre).
  rewrite H, app_nil_r in Hs. by subst.
Qed.

Lemma skip_space_suffix (s : list byte) : skip_space s `suffix_of` s.
Proof. destruct (skip_space_spaces s) as (pre & Hs & _). by exists pre. Qed.

Lemma span_digits_suffix (s : list byte) : (span_digits s).2 `suffix_of` s.
Proof.
  induction s as [|c s IH]; simpl; [done|].
  destruct (is_digit c); [|done]. destruct (span_digits s); simpl in *.
  by apply suffix_cons_r.
Qed.

Lemma scan_exponent_suffix lit s l r :
  scan_exponent lit s = Some (l, r) → r `suffix_of` s.
Proof.
  unfold scan_exponent. destruct s as [|e s']; [by intros [= _ <-]|].
  destruct (is_byte x65 e || is_byte x45 e); [|by intros [= _ <-]].
  set (p := match s' with [] => _ | _ => _ end).
  assert (Hp : p.2 `suffix_of` s').
  { unfold p. destruct s' as [|c t]; [done|].
    destruct (is_byte x2b c || is_byte x2d c); simpl; [|done].
    by apply suffix_cons_r. }
  destruct p as [sign s'']. pose proof (span_digits_suffix s'') as Hd.
  destruct (span_digits s'') as [[|d0 d] r']; [done|].
  intros [= _ <-]. simpl in *. apply suffix_cons_r. by etrans.
Qed.

Lemma scan_fraction_suffix lit s l r :
  scan_fraction lit s = Some (l, r) → r `suffix_of` s.
Proof.
  unfold scan_fraction. destruct s as [|c s']; [apply scan_exponent_suffix|].
  destruct (is_byte x2e c); [|apply scan_exponent_suffix].
  pose proof (span_digits_suffix s') as Hd.
  destruct (span_digits s') as [[|d0 d] r']; [done|].
  intros H%scan_exponent_suffix. simpl in *. apply suffix_cons_r. by etrans.
Qed.

Lemma scan_digits_suffix sign s l r :
  scan_digits sign s = Some (l, r) → r `suffix_of` s.
Proof.
  unfold scan_digits. destruct s as [|c s']; [done|].
  destruct (is_byte x30 c).
  - intros H%scan_fraction_suffix. by apply suffix_cons_r.
  - destruct (is_digit c); [|done]. pose proof (span_digits_suffix s') as Hd.
    destruct (span_digits s') as [d r']. intros H%scan_fraction_suffix.
    simpl in *. apply suffix_cons_r. by etrans.
Qed.

Lemma scan_number_suffix s l r :
  scan_number s = Some (l, r) → r `suffix_of` s.
Proof.
  unfold scan_number. destruct s as [|c s']; [done|].
  destruct (is_byte x2d c); intros H%scan_digits_suffix; [|done].
  by apply suffix_cons_r.
Qed.

Lemma strip_prefix_suffix p s r : strip_prefix p s = Some r → r `suffix_of` s.
Proof.
  revert s. induction p as [|a p IH]; intros [|b s]; simpl; try done.
  - by intros [= <-].
  - by intros [= <-].
  - destruct (Byte.eqb a b); [|done]. intros H%IH. by apply suffix_cons_r.
Qed.

Lemma scan_literal_suffix s v r :
  scan_literal s = Some (v, r) → r `suffix_of` s.
Proof.
  unfold scan_literal.
  destruct (strip_prefix (bytes "true") s) as [r1|] eqn:H1.
  { intros [= _ <-]. by apply strip_prefix_suffix in H1. }
  destruct (strip_prefix (bytes "false") s) as [r2|] eqn:H2.
  { intros [= _ <-]. by apply strip_prefix_suffix in H2. }
  destruct (strip_prefix (bytes "null") s) as [r3|] eqn:H3.
  { intros [= _ <-]. by apply strip_prefix_suffix in H3. }
  destruct (scan_number s) as [[lit r']|] eqn:Hn; [|done].
  intros [= _ <-]. by apply scan_number_suffix in Hn.
Qed.

Lemma scan_string_suffix s ps r :
  scan_string s = Some (ps, r) → r `suffix_of` s.
Proof.
  remember (length s) as n eqn:Hn. revert s ps r Hn.
  induction (lt_wf n) as [n _ IH]. intros s ps r ->.
  destruct s as [|c rest]; simpl; [done|].
  destruct (is_byte x22 c); [intros [= _ <-]; by apply suffix_cons_r|].
  destruct (is_byte x5c c).
  - destruct rest as [|e rest']; [done|].
    destruct (simple_escape e) as [b|].
    + intros [ps' H]%more_length.
      eapply (IH (length rest')) in H; [|simpl; lia|done].
      by do 2 apply suffix_cons_r.
    + destruct (is_byte x75 e); [|done].
      destruct rest' as [|h1 [|h2 [|h3 [|h4 rest'']]]]; try done.
      destruct (hex_value h1), (hex_value h2), (hex_value h3), (hex_value h4);
        try done.
      intros [ps' H]%more_length.
      eapply (IH (length rest'')) in H; [|simpl; lia|done].
      by do 6 apply suffix_cons_r.
  - destruct (Byte.to_N c <? 32)%N; [done|].
    intros [ps' H]%more_length.
    eapply (IH (length rest)) in H; [|simpl; lia|done]. by apply suffix_cons_r.
Qed.

Definition ends {A : Type} (s : list byte) (r : scan A) : Prop :=
  match r with
  | Scanned _ rest => rest `suffix_of` s
  | _ => True
  end.

Lemma parse_ends (fuel : nat) :
  (∀ depth s, ends s (parse_value fuel depth s)) ∧
  (∀ depth s, ends s (parse_elements fuel depth s)) ∧
  (∀ depth s, ends s (parse_members fuel depth s)).
Proof.
  induction fuel as [|fuel (IHv & IHe & IHm)]; [done|].
  repeat split; intros depth s.
  - cbn [parse_value]. destruct s as [|c s']; [done|].
    destruct (is_byte x7b c).
    { destruct (maxNestingDepth <=? depth)%N; [done|].
      pose proof (skip_space_suffix s') as Hs.
      destruct (skip_space s') as [|c' r]; [done|].
      destruct (is_byte x7d c').
      { simpl. apply suffix_cons_r. etrans; [|exact Hs]. by apply suffix_cons_r. }
      pose proof (IHm (depth + 1)%N (c' :: r)) as H.
      destruct (parse_members fuel (depth + 1) (c' :: r)); simpl in *; [|done..].
      apply suffix_cons_r. by etrans. }
    destruct (is_byte x5b c).
    { destruct (maxNestingDepth <=? depth)%N; [done|].
      pose proof (skip_space_suffix s') as Hs.
      destruct (skip_space s') as [|c' r]; [done|].
      destruct (is_byte x5d c').
      { simpl. apply suffix_cons_r. etrans; [|exact Hs]. by apply suffix_cons_r. }
      pose proof (IHe (depth + 1)%N (c' :: r)) as H.
      destruct (parse_elements fuel (depth + 1) (c' :: r)); simpl in *; [|done..].
      apply suffix_cons_r. by etrans. }
    destruct (is_byte x22 c).
    { destruct (scan_string s') as [[ps r]|] eqn:Hq; [|done].
      apply scan_string_suffix in Hq. simpl. by apply suffix_cons_r. }
    destruct (scan_literal (c :: s')) as [[v r]|] eqn:Hl; [|done].
    by apply scan_literal_suffix in Hl.
  - cbn [parse_elements]. pose proof (IHv depth s) as Hv.
    destruct (parse_value fuel depth s) as [v r| |]; simpl in *; [|done..].
    pose proof (skip_space_suffix r) as Hr.
    destruct (skip_space r) as [|c r']; [done|].
    assert (Hr' : r' `suffix_of` s).
    { etrans; [|exact Hv]. etrans; [|exact Hr]. by apply suffix_cons_r. }
    destruct (is_byte x5d c); [done|].
    destruct (is_byte x2c c); [|done].
    pose proof (skip_space_suffix r') as Hr''.
    pose proof (IHe depth (skip_space r')) as He.
    destruct (parse_elements fuel depth (skip_space r')); simpl in *; [|done..].
    etrans; [exact He|]. by etrans.
  - cbn [parse_members]. destruct s as [|q s']; [done|].
    destruct (is_byte x22 q); [|done].
    destruct (scan_string s') as [[ps r]|] eqn:Hq; [|done].
    apply scan_string_suffix in Hq.
    pose proof (skip_space_suffix r) as Hr.
    destruct (skip_space r) as [|c r']; [done|].
    destruct (is_byte x3a c); [|done].
    pose proof (skip_space_suffix r') as Hr'.
    pose proof (IHv depth (skip_space r')) as Hv.
    destruct (parse_value fuel depth (skip_space r')) as [v r''| |];
      simpl in *; [|done..].
    pose proof (skip_space_suffix r'') as Hr''.
    destruct (skip_space r'') as [|c' t]; [done|].
    assert (Ht : t `suffix_of` q :: s').
    { apply suffix_cons_r. etrans; [|exact Hq]. etrans; [|exact Hr].
      apply suffix_cons_r. etrans; [|exact Hr']. etrans; [|exact Hv].
      etrans; [|exact Hr'']. by apply suffix_cons_r. }
    destruct (is_byte x7d c'); [done|].
    destruct (is_byte x2c c'); [|done].
    pose proof (skip_space_suffix t) as Ht'.
    pose proof (IHm depth (skip_space t)) as Hm.
    destruct (parse_members fuel depth (skip_space t)); simpl in *; [|done..].
    etrans; [exact Hm|]. by etrans.
Qed.

(** What [parse] accepts, and the text it yields: the input without the
    white space around the value. *)
Lemma parse_trims (data : list byte) (v : value) (text : list byte) :
  parse data = Some (v, text) →
  text ≠ [] ∧
  ∃ pre post, data = pre ++ text ++ post ∧
              Forall (λ c, is_space c = true) pre ∧
              Forall (λ c, is_space c = true) post.
Proof.
  unfold parse. destruct (skip_space_spaces data) as (pre & Hd & Hpre).
  set (s := skip_space data) in *.
  pose proof (proj1 (parse_ends (2 * length s + 2)) 0%N s) as He.
  pose proof (proj1 (parse_fed (2 * length s + 2)) 0%N s) as Hf.
  destruct (parse_value (2 * length s + 2) 0 s) as [v' r| |]; [|done..].
  simpl in He, Hf. destruct (skip_space r) eqn:Hr; [|done].
  intros [= -> <-]. destruct He as [k Hk].
  assert (Htake : take (length s - length r) s = k).
  { rewrite Hk, length_app.
    replace (length k + length r - length r)%nat with (length k) by lia.
    by rewrite take_app_length. }
  rewrite Htake. split.
  - intros ->. rewrite Hk in Hf. simpl in Hf. lia.
  - exists pre, r. split; [by rewrite Hd, Hk|]. split; [done|].
    by apply skip_space_nil.
Qed.

End MoreJSONProps.

(** X21. The one error [UnmarshalJSON] returns is a syntax error, and it
    returns it in two cases only: the input is not valid JSON, or the input
    is an envelope of type ["json"] whose [Data] is not valid JSON.  Input
    that is valid JSON but cannot be decoded into the envelope, a number or
    an array say, is no error: it is read as a plain message. *)
Theorem UnmarshalJSON_errors (data : list byte) :
  (JSON.parse data = None → UnmarshalJSON data = inl SyntaxError) ∧
  (∀ err, UnmarshalJSON data = inl err →
     err = SyntaxError ∧
     (JSON.parse data = None ∨
      ∃ mm, json_Unmarshal_envelope data = inr mm ∧
            JSON.Type_ mm = bytes "json" ∧
            JSON.parse (default [] (JSON.Data mm)) = None)) ∧
  (is_Some (JSON.parse data) → is_legacy_envelope data = false →
   ∃ text, UnmarshalJSON data = inr text).
Proof.
  unfold UnmarshalJSON, is_legacy_envelope, json_Unmarshal_envelope,
    json_Unmarshal_raw.
  change (default [] (Some data)) with data.
  split; [by intros ->|]. split.
  - intros err.
    destruct (JSON.parse data) as [[v text]|] eqn:Hp; [|intros [= <-]; by auto].
    destruct (JSON.decode_struct v) as [mm|]; [|done].
    destruct (bytes_eqb (JSON.Type_ mm) (bytes "json")) eqn:Ht; [|done].
    destruct (JSON.parse (default [] (JSON.Data mm))) as [[v' t']|] eqn:Hp';
      [done|].
    intros [= <-]. split; [done|]. right. exists mm.
    by apply bytes_eqb_eq in Ht.
  - intros [[v text] ->].
    destruct (JSON.decode_struct v) as [mm|]; [|by eauto].
    intros ->. by eauto.
Qed.

(** X22. What [UnmarshalJSON] stores in the message is never empty, and it
    is the source text byte for byte with the white space around the value
    removed, the source being the input itself or, for an envelope of type
    ["json"], its decoded [Data]. *)
Theorem UnmarshalJSON_trims (data text : list byte) :
  UnmarshalJSON data = inr text →
  text ≠ [] ∧
  ∃ source pre post,
    source = pre ++ text ++ post ∧
    Forall (λ c, JSON.is_space c = true) pre ∧
    Forall (λ c, JSON.is_space c = true) post ∧
    if is_legacy_envelope data
    then ∃ mm, json_Unmarshal_envelope data = inr mm ∧ JSON.Data mm = Some source
    else source = data.
Proof.
  unfold UnmarshalJSON, is_legacy_envelope.
  destruct (json_Unmarshal_envelope data) as [e|mm] eqn:He.
  - unfold json_Unmarshal_raw. change (default [] (Some data)) with data.
    destruct (JSON.parse data) as [[v t]|] eqn:Hp; [|done].
    intros [= ->]. apply MoreJSONProps.parse_trims in Hp as (Hne & pre & post & Hd & H1 & H2).
    split; [done|]. by exists data, pre, post.
  - destruct (bytes_eqb (JSON.Type_ mm) (bytes "json")) eqn:Ht.
    + unfold json_Unmarshal_raw.
      destruct (JSON.parse (default [] (JSON.Data mm))) as [[v t]|] eqn:Hp; [|done].
      intros [= ->]. destruct (JSON.Data mm) as [src|] eqn:HD; [|done].
      simpl in Hp.
      apply MoreJSONProps.parse_trims in Hp as (Hne & pre & post & Hd & H1 & H2).
      split; [done|]. exists src, pre, post. repeat split; try done. by exists mm.
    + unfold json_Unmarshal_raw. change (default [] (Some data)) with data.
      destruct (JSON.parse data) as [[v t]|] eqn:Hp; [|done].
      intros [= ->]. apply MoreJSONProps.parse_trims in Hp as (Hne & pre & post & Hd & H1 & H2).
      split; [done|]. by exists data, pre, post.
Qed.

(** ** The further properties at concrete inputs *)

(** A store that accepts every update and every creation. *)
Lemma life_cycle_ordered_witness :
  (∀ n m : nat, (n ≤ m)%nat → tick_clock n ≤ tick_clock m) ∧
  let update (j : Job) (s : unit) : (unit + string) * unit := (inr "2-0", s) in
  let create (j : Job) (s : unit) : (unit + string * string) * unit :=
    (inr ("0a1", "1-0"), s) in
  let w0 := mkWorld () [] 0 in
  let '(j0, w1) := NewJob tick_clock (sample_job "" "" "" 0) sample_request w0 in
  let '((_, j1), w2) := AckConsumed tick_clock (λ _, false) update create j0 w1 in
  let '((_, j2), _) := Nack tick_clock (λ _, false) update create "boom" j1 w2 in
  JState j2 = Errored ∧ Error j2 = "boom" ∧
  QueuedAt j2 = 0 ∧ StartedAt j2 = 1000 ∧ FinishedAt j2 = 2000 ∧
  Payload j2 = None ∧ Message j2 = Some (bytes "{}").
Proof.
  assert (Hmono : ∀ n m : nat, (n ≤ m)%nat → tick_clock n ≤ tick_clock m)
    by (unfold tick_clock; lia).
  split; [exact Hmono|].
  pose proof (life_cycle_ordered (Err:=unit) (Store:=unit) tick_clock (λ _, false)
                (λ _ s, (inr "2-0", s)) (λ _ s, (inr ("0a1", "1-0"), s))
                (sample_job "" "" "" 0) sample_request (Some "boom")
                (mkWorld () [] 0) Hmono) as H.
  cbn in H. cbn. intuition.
Defined.

Lemma FilterJobsBeforeDate_sorted_witness :
  StronglySorted QueuedAt_le (insertion_sort less_QueuedAt sample_jobs) ∧
  FilterJobsBeforeDate (insertion_sort less_QueuedAt sample_jobs) 2
  = take 2 (insertion_sort less_QueuedAt sample_jobs).
Proof.
  split; [apply sort_Slice_sorted|].
  exact (proj1 (FilterJobsBeforeDate_sorted
                  (insertion_sort less_QueuedAt sample_jobs) 2
                  (sort_Slice_sorted sample_jobs))).
Defined.

Lemma FilterByWorkerAndState_no_limit_witness :
  0 ≤ 0 ∧
  FilterByWorkerAndState sample_jobs "konnector" Queued 0
  = [sample_job "c" "konnector" Queued 5; sample_job "f" "konnector" Queued 0] ∧
  FilterByWorkerAndState_scanned sample_jobs "konnector" Queued 0 = 6%nat.
Proof.
  split; [lia|].
  destruct (FilterByWorkerAndState_no_limit sample_jobs "konnector" Queued 0
              ltac:(lia)) as (Hres & Hscan & _).
  split; [exact Hres|exact Hscan].
Defined.

Lemma GetLastsJobs_bounds_witness :
  SortSlice insertion_sort ∧
  (length (lj_result (GetLastsJobs insertion_sort sample_jobs "konnector")) ≤ 200)%nat ∧
  lj_result (GetLastsJobs insertion_sort sample_jobs "konnector") ⊆+ sample_jobs.
Proof.
  split; [exact insertion_sort_SortSlice|].
  destruct (GetLastsJobs_bounds insertion_sort sample_jobs "konnector")
    as (Hlen & _ & Hsub).
  split; [exact Hlen|exact Hsub].
Defined.

(** Fifty-one jobs of one worker type and state, queued at fifty-one
    instants: the job left out is the one queued last, which stands first in
    the slice. *)
Lemma countdown_jobs_left_out :
  sample_job "00001" "konnector" Done 51
  ∉ lj_result (GetLastsJobs insertion_sort (countdown_jobs 51) "konnector").
Proof.
  intros Hin. apply (list_elem_of_fmap_2 JobID) in Hin.
  vm_compute in Hin.
  repeat (apply elem_of_cons in Hin as [Hin|Hin]; [discriminate|]).
  by apply elem_of_nil in Hin.
Qed.

Lemma GetLastsJobs_keeps_earliest_witness :
  SortSlice insertion_sort ∧
  let jobs := countdown_jobs 51 in
  let r := GetLastsJobs insertion_sort jobs "konnector" in
  let x := sample_job "00002" "konnector" Done 50 in
  let y := sample_job "00001" "konnector" Done 51 in
  head jobs = Some y ∧ length (lj_result r) = 50%nat ∧
  head (lj_result r) = Some (sample_job "00051" "konnector" Done 1) ∧
  last (lj_result r) = Some x ∧
  x ∈ lj_result r ∧ y ∈ jobs ∧ (y ∉ lj_result r) ∧
  QueuedAt x ≤ QueuedAt y ∧ QueuedAt x = 50 ∧ QueuedAt y = 51.
Proof.
  split; [exact insertion_sort_SortSlice|]. intros jobs r x y.
  assert (Hx : x ∈ lj_result r) by (vm_compute; do 49 right; by left).
  assert (Hy : y ∈ jobs) by (vm_compute; by left).
  assert (Hs : Done ∈ [Queued; Running; Done; Errored]) by (do 2 right; by left).
  split; [reflexivity|]. split; [vm_compute; reflexivity|].
  split; [vm_compute; reflexivity|]. split; [vm_compute; reflexivity|].
  split; [exact Hx|]. split; [exact Hy|]. split; [exact countdown_jobs_left_out|].
  split; [|split; reflexivity].
  exact (GetLastsJobs_keeps_earliest insertion_sort jobs "konnector" Done x y
           Hs Hx eq_refl Hy eq_refl eq_refl countdown_jobs_left_out).
Defined.

Lemma GetLastsJobs_small_witness :
  SortSlice insertion_sort ∧
  (∀ s, (length (List.filter (matches "konnector" s) sample_jobs) ≤ 50)%nat) ∧
  lj_result (GetLastsJobs insertion_sort sample_jobs "konnector")
  ≡ₚ [sample_job "a" "konnector" Done 3; sample_job "c" "konnector" Queued 5;
      sample_job "d" "konnector" Done 2; sample_job "e" "konnector" Errored 4;
      sample_job "f" "konnector" Queued 0].
Proof.
  split; [exact insertion_sort_SortSlice|].
  assert (Hsmall : ∀ s, (length (List.filter (matches "konnector" s) sample_jobs)
                         ≤ 50)%nat).
  { intros s. etrans; [apply List.filter_length_le|]. simpl. lia. }
  split; [exact Hsmall|].
  exact (GetLastsJobs_small insertion_sort sample_jobs "konnector" Hsmall).
Defined.

Lemma GetAllJobs_requests_witness :
  identity_ordered sample_docs ∧
  GetAllJobs (GetAllDocs_paged (Err:=unit)) 1 sample_docs = None ∧
  GetAllJobs (GetAllDocs_paged (Err:=unit)) 2 sample_docs = Some (inr sample_docs).
Proof.
  split; [exact sample_docs_ordered|]. split.
  - exact (GetAllJobs_requests (Err:=unit) sample_docs 1 sample_docs_ordered).
  - exact (GetAllJobs_requests (Err:=unit) sample_docs 2 sample_docs_ordered).
Defined.

(** A store whose second page comes back empty. *)
Lemma GetAllJobs_second_page_witness :
  let store (_ : unit) (req : AllDocsRequest) : unit + list Job :=
    if String.eqb (StartKey req) "" then inr sample_docs else inr [] in
  take 2 sample_docs ≠ [] ∧
  store () (mkAllDocsRequest 10001 "")
  = inr (take 2 sample_docs ++ [sample_job "b70" "konnector" Queued 5]) ∧
  GetAllJobs store 2 () = Some (inr (take 2 sample_docs)).
Proof.
  intros store. split; [done|]. split; [reflexivity|].
  exact (GetAllJobs_second_page store () (take 2 sample_docs)
           (sample_job "b70" "konnector" Queued 5) ltac:(done) eq_refl).
Defined.

Lemma WaitUntilDone_passes_over_witness :
  let pre := [(Minute, mkRTEvent OtherDoc);
              (2 * Minute, mkRTEvent (JobDoc (sample_job "a" "konnector" Running 0)));
              (3 * Minute, mkRTEvent (CouchJSONDoc {[ "state" := AnyOther ]}))] in
  let rest := [(4 * Minute, mkRTEvent (JobDoc (sample_job "a" "konnector" Errored 0)))] in
  Forall (λ p, p.1 < 10 * Minute) pre ∧
  WaitUntilDone (Err:=unit) None 0 (pre ++ rest)
  = Some (NewError "The konnector failed on account deletion").
Proof.
  intros pre rest.
  split; [unfold pre, Minute; repeat constructor|].
  etrans; [apply (WaitUntilDone_passes_over (Err:=unit) 0 pre rest)|reflexivity].
  unfold pre, Minute. repeat constructor; simpl; done.
Defined.

Lemma WaitUntilDone_after_acknowledgement_witness :
  let update (j : Job) (s : unit) : (unit + string) * unit := (inr "2-0", s) in
  let create (j : Job) (s : unit) : (unit + string * string) * unit :=
    (inr ("0a1", "1-0"), s) in
  let nacked :=
    (Nack tick_clock (λ _, false) update create "boom"
       (sample_job "0a1" "konnector" Running 0) (mkWorld () [] 0)).1.2 in
  Minute < 0 + 10 * Minute ∧
  WaitUntilDone (Err:=unit) None 0 [(Minute, mkRTEvent (JobDoc nacked))]
  = Some (NewError "The konnector failed on account deletion").
Proof.
  intros update create nacked.
  assert (Ht : Minute < 0 + 10 * Minute) by (unfold Minute; lia).
  split; [exact Ht|].
  exact (proj1 (proj2 (WaitUntilDone_after_acknowledgement (Err:=unit) (Store:=unit)
                         tick_clock (λ _, false) update create (WErr:=unit)
                         (sample_job "0a1" "konnector" Running 0) "boom"
                         (mkWorld () [] 0) 0 Minute [] Ht))).
Defined.

Module MoreHeapExamples.
Import Heap.

Lemma Clone_allocations_witness :
  valid_job sample_mem sample_jobH ∧
  let '(cloned, j', m') := Clone sample_jobH sample_mem in
  Message cloned = Message sample_jobH ∧
  arrays m' = arrays sample_mem ++ [bytes "{}"; bytes "[1,2]"] ∧
  Options j' = Options sample_jobH.
Proof.
  split; [exact HeapExamples.sample_valid|].
  pose proof (MoreHeapProps.Clone_allocations sample_jobH sample_mem
                HeapExamples.sample_valid) as H.
  destruct (Clone sample_jobH sample_mem) as [[cloned j'] m'].
  destruct H as (HM & _ & _ & HO & _ & HA & _).
  split; [exact HM|]. split; [exact HA|exact HO].
Defined.

(** A byte stored through the receiver's [Payload] after the call does not
    reach the clone. *)
Lemma Clone_isolates_writes_witness :
  valid_job sample_mem sample_jobH ∧
  let '(cloned, j', m') := Clone sample_jobH sample_mem in
  ∃ s m'', Payload j' = Some s ∧ poke s 1 x30 m' = Some m'' ∧
           view m'' cloned = view m' cloned ∧
           bytes_of m'' s = bytes "[0,2]".
Proof.
  split; [exact HeapExamples.sample_valid|].
  pose proof (MoreHeapProps.Clone_isolates_writes sample_jobH sample_mem
                HeapExamples.sample_valid) as H.
  destruct (Clone sample_jobH sample_mem) as [[cloned j'] m'] eqn:HC.
  vm_compute in HC. injection HC as <- <- <-.
  eexists _, _. split; [reflexivity|]. split; [reflexivity|].
  split; [|reflexivity].
  assert (Hin : Some (mkSlice 3 0 5)
                ∈ [Some (mkSlice 2 0 2); None; Some (mkSlice 3 0 5)])
    by (do 2 right; by left).
  apply (proj2 (proj1 (H (mkSlice 3 0 5) 1%nat x30) Hin)).
  reflexivity.
Defined.

End MoreHeapExamples.

Lemma UnmarshalJSON_trims_witness :
  UnmarshalJSON (json_text "  {'to': ['a', 'b']} ") = inr (json_text "{'to': ['a', 'b']}") ∧
  json_text "{'to': ['a', 'b']}" ≠ [].
Proof.
  assert (H : UnmarshalJSON (json_text "  {'to': ['a', 'b']} ")
              = inr (json_text "{'to': ['a', 'b']}")) by (vm_compute; reflexivity).
  split; [exact H|].
  exact (proj1 (UnmarshalJSON_trims _ _ H)).
Defined.
